(** * pyro/distributions/lkj.py: correlation-Cholesky factors and the LKJ prior

    A shallow embedding of [src/pyro/distributions/lkj.py].

    Numbers.  The module computes with torch float32 tensors.  The main
    model takes a tensor element to be a real number ([R] of the Standard
    Library) with exact arithmetic: [sqrt], [ln], [tanh], [cosh] are the
    real functions, a comparison is the comparison of reals.  A statement
    over this model is a statement about the algorithm in exact arithmetic;
    it is made only where rounding does not decide it.  Where it does (the
    sign of a diagonal entry that rounds to zero), the vine forward map and
    the validator are also given over binary32 ([Generic], [Binary32]), and
    evaluated there.  Where torch would produce NaN or an infinity, [sqrt]
    of a negative number and division by zero, the real functions return
    [0]; no theorem relies on those values.

    Shapes.  A one-dimensional tensor is a [list R]; a matrix is the list of
    its rows, so a matrix without rows has no columns either (a tensor of
    shape [(0, m)] with [m > 0] has no counterpart).  Shape arithmetic
    (slices, broadcasting, index checks) is done on [nat], and an operation
    that torch or Python rejects raises the matching exception in the
    [result] monad.

    State.  The only mutable field that a method writes after construction
    is the cache [_lkj_constant]; methods that touch it take the instance
    and return the updated instance.

    Outside the model.  [Beta(concentrations, concentrations)] of line 182
    is kept as its parameter vector: what the constructor of [Beta] checks
    is not in the file, and nothing is stated about a call of [__init__]
    that reaches line 182. *)

From Stdlib Require Import Reals Lra Lia ZArith.
From Stdlib Require Import Floats.SpecFloat.
From stdpp Require Import base list strings.

Local Open Scope R_scope.

(** ** Exceptions and the result monad *)

Inductive exn : Type :=
  | ValueError (msg : string)
  | RuntimeError (msg : string)
  | IndexError (msg : string)
  | TypeError (msg : string)
  | AttributeError (attr : string)
  | NameError (name : string)
  | UnboundLocalError (name : string).

Inductive result (A : Type) : Type :=
  | Ok (a : A)
  | Raise (e : exn).
Arguments Ok {A} a.
Arguments Raise {A} e.

#[global] Instance result_ret : MRet result := fun A a => Ok a.
#[global] Instance result_bind : MBind result := fun A B f m =>
  match m with
  | Ok a => f a
  | Raise e => Raise e
  end.

(** [for j in range(lo, lo + n): s = body(j, s)], stopping at the first
    exception. *)
Fixpoint for_range {St : Type} (lo n : nat) (body : nat -> St -> result St) (s : St)
  : result St :=
  match n with
  | O => Ok s
  | S n' => s' ← body lo s; for_range (S lo) n' body s'
  end.

(** ** Deciding comparisons of reals *)

#[global] Instance Rlt_decision (a b : R) : Decision (a < b) := Rlt_dec a b.
#[global] Instance Rle_decision (a b : R) : Decision (a <= b) := Rle_dec a b.
#[global] Instance R_eq_decision : EqDecision R := Req_dec_T.

(** ** The tensor operations the module uses *)

Abbreviation tensor := (list R).
Abbreviation matrix := (list (list R)).

Module Torch.

(** [t.sum()] *)
Definition sum (t : tensor) : R := foldr Rplus 0 t.

(** [t ** 2], [t.pow(2)] *)
Definition pow2 (t : tensor) : tensor := (fun v => v ^ 2) <$> t.

(** [1 - t] *)
Definition rsub1 (t : tensor) : tensor := (fun v => 1 - v) <$> t.

(** [t.sqrt()] *)
Definition tsqrt (t : tensor) : tensor := sqrt <$> t.

(** [t.log()] *)
Definition tlog (t : tensor) : tensor := ln <$> t.

(** [t[lo:hi]]: Python clamps a slice to the tensor's extent. *)
Definition slice (lo hi : nat) (t : tensor) : tensor := take (hi - lo) (drop lo t).

(** [t[i]] *)
Definition getitem (t : tensor) (i : nat) : result R :=
  match t !! i with
  | Some v => Ok v
  | None => Raise (IndexError "index out of range")
  end.

(** Broadcasting of two one-dimensional tensors: equal lengths, or one of
    them has length one. *)
Definition pointwise (f : R -> R -> R) (a b : tensor) : result tensor :=
  if decide (length a = length b) then Ok (zip_with f a b)
  else match a, b with
       | [u], _ => Ok (f u <$> b)
       | _, [v] => Ok ((fun u => f u v) <$> a)
       | _, _ => Raise (RuntimeError "size of tensor a must match size of tensor b")
       end.

(** An in-place operation [a op= b]: [b] is broadcast, and the result must
    have the shape of [a]. *)
Definition inplace (f : R -> R -> R) (a b : tensor) : result tensor :=
  if decide (length a = length b) then Ok (zip_with f a b)
  else match b with
       | [v] => Ok ((fun u => f u v) <$> a)
       | _ => Raise (RuntimeError "output shape does not match broadcast shape")
       end.

(** [torch.zeros((r, c))] *)
Definition zeros (r c : nat) : matrix := replicate r (replicate c 0).

Definition nrows (x : matrix) : nat := length x.
Definition ncols (x : matrix) : nat :=
  match x with
  | [] => 0%nat
  | row :: _ => length row
  end.

(** [x[i, j] = v] *)
Definition setitem2 (x : matrix) (i j : nat) (v : R) : result matrix :=
  match x !! i with
  | Some row =>
      if decide (j < length row)%nat then Ok (<[i := <[j := v]> row]> x)
      else Raise (IndexError "index out of range")
  | None => Raise (IndexError "index out of range")
  end.

(** The right-hand side of a slice assignment is broadcast to the shape of
    the slice. *)
Definition expand_to (n : nat) (vs : tensor) : result tensor :=
  if decide (length vs = n) then Ok vs
  else match vs with
       | [v] => Ok (replicate n v)
       | _ => Raise (RuntimeError "shape mismatch")
       end.

(** [x[lo:, j] = vs] *)
Definition setcol (x : matrix) (lo j : nat) (vs : tensor) : result matrix :=
  if decide (j < ncols x)%nat then
    vs' ← expand_to (nrows x - lo) vs;
    Ok (imap (fun r row =>
                if decide (lo <= r)%nat then
                  match vs' !! (r - lo)%nat with
                  | Some v => <[j := v]> row
                  | None => row
                  end
                else row) x)
  else Raise (IndexError "index out of range").

(** [x[lo:, j]] *)
Definition getcol (x : matrix) (lo j : nat) : result tensor :=
  if decide (j < ncols x)%nat then
    Ok (omap (fun row => row !! j) (drop lo x))
  else Raise (IndexError "index out of range").

(** [x.tril(k)]: entry (i, j) is kept when [j - i <= k]. *)
Definition tril (k : Z) (x : matrix) : matrix :=
  imap (fun i row =>
          imap (fun j v => if decide (Z.of_nat j - Z.of_nat i <= k)%Z then v else 0) row) x.

(** [x.diagonal(dim1=-2, dim2=-1)], [x.diag()] *)
Definition diagonal (x : matrix) : tensor :=
  omap (fun i => row ← x !! i; row !! i) (seq 0 (Nat.min (nrows x) (ncols x))).

(** [x.pow(2).sum(-1)], [x.sum(1)]: one sum per row. *)
Definition row_sums (x : matrix) : tensor := sum <$> x.

(** [b.min(-1)[0]] on a tensor of booleans; torch refuses to reduce an
    empty tensor. *)
Definition min_bool (b : list bool) : result bool :=
  match b with
  | [] => Raise (RuntimeError "cannot perform reduction function min on an empty tensor")
  | _ => Ok (forallb (fun v => v) b)
  end.

(** [torch.linspace(start, end, steps)] *)
Definition linspace (a b : R) (steps : nat) : tensor :=
  match steps with
  | 0%nat => []
  | 1%nat => [a]
  | _ => (fun i => a + INR i * ((b - a) / INR (steps - 1))) <$> seq 0 steps
  end.

(** [t.tail(n)]: a torch tensor has no attribute [tail]; the attribute
    lookup raises. *)
Definition tail (t : tensor) (n : nat) : result tensor :=
  Raise (AttributeError "tail").

End Torch.

(** ** Names

    A name that a function body uses without binding it is looked up, when
    the statement runs, in the module namespace and then among the builtins.
    The module namespace holds the imports (lines 1-10) and the module-level
    definitions of the file. *)

Inductive binding : Type :=
  | BModule
  | BClass
  | BFunction
  | BInstance
  | BException (mk : string -> exn).

Definition module_namespace : list (string * binding) :=
  [ ("absolute_import", BInstance); ("division", BInstance);
    ("print_function", BInstance);
    ("math", BModule); ("torch", BModule);
    ("biject_to", BInstance); ("constraints", BModule);
    ("transform_to", BInstance);
    ("Constraint", BClass); ("Transform", BClass);
    ("ComposeTransform", BClass);
    ("Beta", BClass); ("TorchDistribution", BClass);
    ("_CorrCholesky", BClass); ("corr_cholesky_constraint", BInstance);
    ("_TanhTransform", BClass);
    ("_PartialCorrToCorrCholeskyTransform", BClass);
    ("CorrCholeskyTransform", BClass);
    ("_transform_to_corr_cholesky", BFunction);
    ("LKJCholeskyFactor", BClass) ]%string.

(** The builtins the file mentions, and the builtin exception classes of the
    model. *)
Definition builtins : list (string * binding) :=
  [ ("any", BFunction); ("int", BClass); ("isinstance", BFunction);
    ("range", BClass); ("super", BClass);
    ("ValueError", BException ValueError);
    ("RuntimeError", BException RuntimeError);
    ("IndexError", BException IndexError);
    ("TypeError", BException TypeError);
    ("AttributeError", BException AttributeError);
    ("NameError", BException NameError);
    ("UnboundLocalError", BException UnboundLocalError) ]%string.

Fixpoint assoc (name : string) (ns : list (string * binding)) : option binding :=
  match ns with
  | [] => None
  | (n, b) :: ns' => if decide (n = name) then Some b else assoc name ns'
  end.

Definition resolve (name : string) : result binding :=
  match assoc name module_namespace with
  | Some b => Ok b
  | None =>
      match assoc name builtins with
      | Some b => Ok b
      | None => Raise (NameError name)
      end
  end.

(** [raise c(msg)] for the object [c] a name resolved to. *)
Definition raise_instance {A : Type} (c : binding) (msg : string) : result A :=
  match c with
  | BException mk => Raise (mk msg)
  | _ => Raise (TypeError "exceptions must derive from BaseException")
  end.

(** ** The constraint (lines 18-34) *)

Module _CorrCholesky.

Definition check (value : matrix) : result bool :=
  let value_tril := Torch.tril 0 value in
  lower_triangular ←
    Torch.min_bool
      (mjoin (zip_with (zip_with (fun a b : R => bool_decide (a = b))) value_tril value));
  positive_diagonal ←
    Torch.min_bool ((fun v => bool_decide (0 < v)) <$> Torch.diagonal value);
  unit_norm_row ←
    Torch.min_bool
      ((fun s => bool_decide (Rabs (s - 1) < 1e-6))
         <$> Torch.row_sums (Torch.pow2 <$> value));
  Ok (lower_triangular && positive_diagonal && unit_norm_row).

End _CorrCholesky.

(** ** The transforms (lines 42-142) *)

Module _TanhTransform.

Definition _call (x : tensor) : tensor := tanh <$> x.

Definition _inverse (y : tensor) : tensor :=
  (fun v => ln ((1 + v) / (1 - v)) / 2) <$> y.

Definition log_abs_det_jacobian (x y : tensor) : tensor :=
  (fun v => (-2) * v) <$> Torch.tlog (cosh <$> y).

End _TanhTransform.

Module _PartialCorrToCorrCholeskyTransform.

(** Lines 80-83.  [(1 + sqrt(1 + 8 L)) / 2] is a whole number exactly when
    [1 + 8 L] is a perfect square (its root is then odd); the test is made
    on integers here. *)
Definition dimension (L : nat) : result nat :=
  let r := Nat.sqrt (1 + 8 * L) in
  if decide (r * r = 1 + 8 * L)%nat then Ok ((1 + r) / 2)%nat
  else Raise (ValueError "Correlation matrix transformation requires d choose 2 inputs").

(** The variables the loop of [_call] carries. *)
Record call_state : Type := CallState {
  st_x : matrix;
  st_i : nat;
  st_last_squared_x : option tensor;
  st_current_x : tensor
}.

(** Lines 94-97. *)
Definition next_last_squared_x (last_squared_x : option tensor) (current_x : tensor)
  : result tensor :=
  match last_squared_x with
  | None => Ok (Torch.pow2 current_x)
  | Some l => Torch.pointwise Rplus (drop 1 l) (Torch.pow2 current_x)
  end.

(** Lines 92-101, one iteration. *)
Definition call_body (D : nat) (z : tensor) (j : nat) (s : call_state)
  : result call_state :=
  let distance_to_copy := (D - 1 - j)%nat in
  let new_z := Torch.slice (st_i s) (st_i s + distance_to_copy) z in
  last_squared_x ← next_last_squared_x (st_last_squared_x s) (st_current_x s);
  l0 ← Torch.getitem last_squared_x 0;
  x ← Torch.setitem2 (st_x s) j j (sqrt (1 - l0));
  current_x ←
    Torch.pointwise Rmult new_z (Torch.tsqrt (Torch.rsub1 (drop 1 last_squared_x)));
  x ← Torch.setcol x (j + 1) j current_x;
  Ok (CallState x (st_i s + distance_to_copy) (Some last_squared_x) current_x).

Definition _call (z : tensor) : result matrix :=
  D ← dimension (length z);
  let x := Torch.zeros D D in
  x ← Torch.setitem2 x 0 0 1;
  let current_x := Torch.slice 0 (D - 1) z in
  x ← Torch.setcol x 1 0 current_x;
  s ← for_range 1 (D - 1) (call_body D z) (CallState x (D - 1) None current_x);
  Ok (st_x s).

(** Lines 116-119, one iteration: the loop of [_inverse] only updates
    [last_squared_x]; lines 120-121 come after the loop. *)
Definition inverse_body (current_x : tensor) (j : nat) (last_squared_x : option tensor)
  : result (option tensor) :=
  match last_squared_x with
  | None => Ok (Some (Torch.pow2 current_x))
  | Some l =>
      l' ← Torch.inplace Rplus l (Torch.pow2 (drop 1 current_x));
      Ok (Some l')
  end.

Definition _inverse (x : matrix) : result tensor :=
  if decide (Torch.nrows x <> Torch.ncols x) then
    Raise (ValueError "A matrix that isn't square can't be a Cholesky factor of a correlation matrix")
  else
    let D := Torch.nrows x in
    c0 ← Torch.getcol x 1 0;
    let z_stack := [c0] in
    let current_x := c0 in
    last_squared_x ← for_range 1 (D - 1) (inverse_body current_x) None;
    (* [j] keeps the value of the last iteration; without an iteration it
       is unbound *)
    j ← (if decide (2 <= D)%nat then Ok (D - 1)%nat else Raise (UnboundLocalError "j"));
    current_x ← Torch.getcol x j j;
    match last_squared_x with
    | None => Raise (TypeError "unsupported operand type(s) for -: 'int' and 'NoneType'")
    | Some l =>
        q ← Torch.pointwise Rdiv current_x (Torch.tsqrt (Torch.rsub1 l));
        Ok (mjoin (z_stack ++ [q]))
    end.

(** Line 126; the first parameter is the matrix. *)
Definition log_abs_det_jacobian (x : matrix) (z : tensor) : R :=
  Torch.sum (Torch.tlog (Torch.rsub1 (Torch.row_sums (Torch.pow2 <$> Torch.tril (-1) x))))
  * 0.5.

End _PartialCorrToCorrCholeskyTransform.

(** [ComposeTransform([_TanhTransform(), _PartialCorrToCorrCholeskyTransform()])]:
    the parts in order, and their inverses in reverse order. *)
Module CorrCholeskyTransform.

Definition _call (u : tensor) : result matrix :=
  _PartialCorrToCorrCholeskyTransform._call (_TanhTransform._call u).

Definition _inverse (x : matrix) : result tensor :=
  z ← _PartialCorrToCorrCholeskyTransform._inverse x;
  Ok (_TanhTransform._inverse z).

End CorrCholeskyTransform.

(** ** The distribution (lines 150-215) *)

Module LKJCholeskyFactor.

(** The fields [__init__] sets.  [_generating_distribution] is
    [Beta(concentrations, concentrations)] and is kept as its parameter
    vector; [_transformation] is the stateless [CorrCholeskyTransform].
    [eta] is a tensor with one element and is kept as that element. *)
Record instance : Type := Instance {
  _generating_distribution : tensor;
  _eta : R;
  _d : nat;
  _lkj_constant : option R
}.

(** [concentrations[i] = alpha] *)
Definition setitem (t : tensor) (i : nat) (v : R) : result tensor :=
  if decide (i < length t)%nat then Ok (<[i := v]> t)
  else Raise (IndexError "index out of range").

(** Lines 179-181: [for j in range(k+1, d)]. *)
Definition fill_inner (alpha : R) (j : nat) (s : tensor * nat) : result (tensor * nat) :=
  concentrations ← setitem s.1 s.2 alpha;
  Ok (concentrations, (s.2 + 1)%nat).

(** Lines 177-181: [for k in range(d-1)]; the state is
    [(alpha, concentrations, i)]. *)
Definition fill_outer (d : nat) (k : nat) (s : R * tensor * nat)
  : result (R * tensor * nat) :=
  let alpha := s.1.1 - 0.5 in
  ci ← for_range (k + 1) (d - (k + 1)) (fill_inner alpha) (s.1.2, s.2);
  Ok (alpha, ci.1, ci.2).

(** Lines 176-181. *)
Definition fill_concentrations (d : nat) (alpha : R) (concentrations : tensor)
  : result tensor :=
  s ← for_range 0 (d - 1) (fill_outer d) (alpha, concentrations, 0%nat);
  Ok s.1.2.

(** Line 175, [eta.new().expand(vector_size)]: [eta.new()] has no element
    (its shape is [(0,)]), and [expand] changes the size of a dimension only
    when that size is one. *)
Definition new_expand (vector_size : nat) : result tensor :=
  if decide (vector_size = 0)%nat then Ok []
  else Raise (RuntimeError "The expanded size of the tensor must match the existing size (0) at non-singleton dimension 0").

Definition __init__ (d : nat) (eta : R) : result instance :=
  if decide (eta <= 0) then
    c ← resolve "ValueException";
    raise_instance c "eta must be > 0"
  else
    let vector_size := (d * (d - 1) / 2)%nat in
    let alpha := eta + 0.5 * (INR d - 1.0) in
    concentrations ← new_expand vector_size;
    concentrations ← fill_concentrations d alpha concentrations;
    Ok (Instance concentrations eta d None).

(** Lines 188-189.  The draw of [_generating_distribution.sample()], one
    value per concentration, is an argument; [_transformation] is the
    composed transform. *)
Definition rsample (self : instance) (sample : tensor) : result matrix :=
  CorrCholeskyTransform._call ((fun v => v * 2 + -1.0) <$> sample).

Section Density.

(** [torch.lgamma], the logarithm of the absolute value of the gamma
    function; the Standard Library has no gamma function, so it is a
    parameter of the development. *)
Variable lgamma : R -> R.

(** Lines 191-203.  [K] is [x.shape[1]]; for [K = 0], [Km1] is [-1] and
    [linspace] refuses a negative number of steps. *)
Definition lkj_constant (self : instance) (eta : R) (K : nat) : result (R * instance) :=
  match _lkj_constant self with
  | Some c => Ok (c, self)
  | None =>
      if decide (K = 0)%nat then
        Raise (RuntimeError "number of steps must be non-negative")
      else
        let Km1 := (K - 1)%nat in
        let constant := lgamma (eta + 0.5 * INR Km1) * INR Km1 in
        let k := Torch.linspace 1 (INR Km1) Km1 in
        t ← Torch.pointwise Rplus
              ((fun v => v * (ln PI * 0.5)) <$> k)
              (lgamma <$> ((fun v => eta + 0.5 * (INR Km1 - v)) <$> k));
        let constant := constant - Torch.sum t in
        Ok (constant,
            Instance (_generating_distribution self) (_eta self) (_d self) (Some constant))
  end.

(** Lines 205-215.  Lines 208 and 212 use the names [lkj_constant] and
    [km1], which the function does not bind; they are resolved when the
    statement runs.  The statements after a resolution are written as the
    method call and as [Km1], the only readings the text admits. *)
Definition log_prob (self : instance) (x : matrix) : result (R * instance) :=
  let eta := _eta self in
  _ ← resolve "lkj_constant";
  r ← lkj_constant self eta (Torch.ncols x);
  let lp := r.1 in
  let Km1 := (Torch.ncols x - 1)%nat in
  tl ← Torch.tail (Torch.diagonal x) Km1;
  let log_diagonals := Torch.tlog tl in
  _ ← resolve "km1";
  values ← Torch.pointwise Rmult (Torch.linspace (INR Km1 - 1) 0 Km1) log_diagonals;
  upd ← Torch.inplace Rplus values ((fun v => v * (eta * 2 + -2.0)) <$> log_diagonals);
  Ok (Torch.sum upd + lp, r.2).

End Density.

End LKJCholeskyFactor.

(** * The forward map and the validator in binary32

    The vine forward map (lines 79-103) and the validator (lines 23-30)
    once more, over an arbitrary arithmetic: the same statements, with the
    number type and its operations as a parameter.  At the arithmetic of the
    real numbers these are the definitions above ([generic_call_real],
    [generic_check_real]); at binary32, the float32 of a default torch
    tensor, they compute what the code computes, rounding included. *)

Module Generic.

(** A number type with the operations the two functions use: [sq] is
    [t ** 2], [eqb] and [ltb] are [==] and [<], [tol] is the [1e-6] of line
    29 in the number type. *)
Record arithmetic (A : Type) : Type := Arithmetic {
  zero : A;
  one : A;
  add : A -> A -> A;
  sub : A -> A -> A;
  mul : A -> A -> A;
  sq : A -> A;
  sqrt : A -> A;
  abs : A -> A;
  eqb : A -> A -> bool;
  ltb : A -> A -> bool;
  tol : A
}.
Arguments Arithmetic {A}.
Arguments zero {A}.
Arguments one {A}.
Arguments add {A}.
Arguments sub {A}.
Arguments mul {A}.
Arguments sq {A}.
Arguments sqrt {A}.
Arguments abs {A}.
Arguments eqb {A}.
Arguments ltb {A}.
Arguments tol {A}.

Section Arithmetic.

Context {A : Type} (ar : arithmetic A).

(** [t.sum()], added from the right as in the model above.  The source does
    not fix the order in which torch adds; the statement made in binary32
    does not depend on it, since there the test of the diagonal already
    fails. *)
Definition sum (t : list A) : A := foldr (add ar) (zero ar) t.

Definition pow2 (t : list A) : list A := (fun v => sq ar v) <$> t.

Definition rsub1 (t : list A) : list A := (fun v => sub ar (one ar) v) <$> t.

Definition tsqrt (t : list A) : list A := sqrt ar <$> t.

Definition slice (lo hi : nat) (t : list A) : list A := take (hi - lo) (drop lo t).

Definition getitem (t : list A) (i : nat) : result A :=
  match t !! i with
  | Some v => Ok v
  | None => Raise (IndexError "index out of range")
  end.

Definition pointwise (f : A -> A -> A) (a b : list A) : result (list A) :=
  if decide (length a = length b) then Ok (zip_with f a b)
  else match a, b with
       | [u], _ => Ok (f u <$> b)
       | _, [v] => Ok ((fun u => f u v) <$> a)
       | _, _ => Raise (RuntimeError "size of tensor a must match size of tensor b")
       end.

Definition zeros (r c : nat) : list (list A) := replicate r (replicate c (zero ar)).

Definition nrows (x : list (list A)) : nat := length x.

Definition ncols (x : list (list A)) : nat :=
  match x with
  | [] => 0%nat
  | row :: _ => length row
  end.

Definition setitem2 (x : list (list A)) (i j : nat) (v : A) : result (list (list A)) :=
  match x !! i with
  | Some row =>
      if decide (j < length row)%nat then Ok (<[i := <[j := v]> row]> x)
      else Raise (IndexError "index out of range")
  | None => Raise (IndexError "index out of range")
  end.

Definition expand_to (n : nat) (vs : list A) : result (list A) :=
  if decide (length vs = n) then Ok vs
  else match vs with
       | [v] => Ok (replicate n v)
       | _ => Raise (RuntimeError "shape mismatch")
       end.

Definition setcol (x : list (list A)) (lo j : nat) (vs : list A)
  : result (list (list A)) :=
  if decide (j < ncols x)%nat then
    vs' ← expand_to (nrows x - lo) vs;
    Ok (imap (fun r row =>
                if decide (lo <= r)%nat then
                  match vs' !! (r - lo)%nat with
                  | Some v => <[j := v]> row
                  | None => row
                  end
                else row) x)
  else Raise (IndexError "index out of range").

Definition tril (k : Z) (x : list (list A)) : list (list A) :=
  imap (fun i row =>
          imap (fun j v => if decide (Z.of_nat j - Z.of_nat i <= k)%Z then v else zero ar)
               row) x.

Definition diagonal (x : list (list A)) : list A :=
  omap (fun i => row ← x !! i; row !! i) (seq 0 (Nat.min (nrows x) (ncols x))).

Definition row_sums (x : list (list A)) : list A := sum <$> x.

(** Lines 23-30. *)
Definition check (value : list (list A)) : result bool :=
  let value_tril := tril 0 value in
  lower_triangular ←
    Torch.min_bool
      (mjoin (zip_with (zip_with (fun a b : A => eqb ar a b)) value_tril value));
  positive_diagonal ←
    Torch.min_bool ((fun v => ltb ar (zero ar) v) <$> diagonal value);
  unit_norm_row ←
    Torch.min_bool
      ((fun s => ltb ar (abs ar (sub ar s (one ar))) (tol ar))
         <$> row_sums (pow2 <$> value));
  Ok (lower_triangular && positive_diagonal && unit_norm_row).

(** The variables the loop of [_call] carries. *)
Record call_state : Type := CallState {
  st_x : list (list A);
  st_i : nat;
  st_last_squared_x : option (list A);
  st_current_x : list A
}.

(** Lines 94-97. *)
Definition next_last_squared_x (last_squared_x : option (list A)) (current_x : list A)
  : result (list A) :=
  match last_squared_x with
  | None => Ok (pow2 current_x)
  | Some l => pointwise (add ar) (drop 1 l) (pow2 current_x)
  end.

(** Lines 92-101, one iteration. *)
Definition call_body (D : nat) (z : list A) (j : nat) (s : call_state)
  : result call_state :=
  let distance_to_copy := (D - 1 - j)%nat in
  let new_z := slice (st_i s) (st_i s + distance_to_copy) z in
  last_squared_x ← next_last_squared_x (st_last_squared_x s) (st_current_x s);
  l0 ← getitem last_squared_x 0;
  x ← setitem2 (st_x s) j j (sqrt ar (sub ar (one ar) l0));
  current_x ← pointwise (mul ar) new_z (tsqrt (rsub1 (drop 1 last_squared_x)));
  x ← setcol x (j + 1) j current_x;
  Ok (CallState x (st_i s + distance_to_copy) (Some last_squared_x) current_x).

(** Lines 79-103. *)
Definition _call (z : list A) : result (list (list A)) :=
  D ← _PartialCorrToCorrCholeskyTransform.dimension (length z);
  let x := zeros D D in
  x ← setitem2 x 0 0 (one ar);
  let current_x := slice 0 (D - 1) z in
  x ← setcol x 1 0 current_x;
  s ← for_range 1 (D - 1) (call_body D z) (CallState x (D - 1) None current_x);
  Ok (st_x s).

End Arithmetic.

(** The arithmetic of the model above. *)
Definition real_arithmetic : arithmetic R :=
  Arithmetic 0 1 Rplus Rminus Rmult (fun v => v ^ 2) R_sqrt.sqrt Rabs
    (fun a b => bool_decide (a = b)) (fun a b => bool_decide (a < b)) 1e-6.

End Generic.

(** IEEE 754 binary32 with rounding to nearest, ties to even, from the
    Standard Library's specification of floating-point numbers: 24 bits of
    precision, infinities at exponent 128. *)
Module Binary32.

Definition prec : Z := 24.
Definition emax : Z := 128.

(** The binary32 number nearest to the integer [n], and to the quotient of
    two integers below [2^24]. *)
Definition of_Z (n : Z) : spec_float := binary_normalize prec emax n 0 false.
Definition ratio (n d : Z) : spec_float := SFdiv prec emax (of_Z n) (of_Z d).

Definition arithmetic : Generic.arithmetic spec_float :=
  Generic.Arithmetic (S754_zero false) (of_Z 1)
    (SFadd prec emax) (SFsub prec emax) (SFmul prec emax)
    (fun v => SFmul prec emax v v) (SFsqrt prec emax) SFabs
    SFeqb SFltb (ratio 1 1000000).

Definition _call (z : list spec_float) : result (list (list spec_float)) :=
  Generic._call arithmetic z.

Definition check (value : list (list spec_float)) : result bool :=
  Generic.check arithmetic value.

(** [-1 < v < 1] on binary32 numbers. *)
Definition in_unit_interval (v : spec_float) : bool :=
  SFltb (of_Z (-1)) v && SFltb v (of_Z 1).


End Binary32.

(** * The vocabulary of the properties *)

(** [x[i, j]], read as [0] outside the matrix. *)
Definition entry (x : matrix) (i j : nat) : R :=
  default 0 (row ← x !! i; row !! j).

(** [x] has [n] rows of [m] elements. *)
Definition is_matrix (n m : nat) (x : matrix) : Prop :=
  length x = n /\ forall i row, x !! i = Some row -> length row = m.

(** The sum of the squares of a row. *)
Definition sum_sq (row : list R) : R := Torch.sum (Torch.pow2 row).

(** The three conditions of the constraint: nothing above the diagonal, a
    positive diagonal, and rows whose sum of squares is within 1e-6 of one. *)
Definition lower_triangular (D : nat) (x : matrix) : Prop :=
  forall i j, (i < j)%nat -> (j < D)%nat -> entry x i j = 0.

Definition positive_diagonal (D : nat) (x : matrix) : Prop :=
  forall i, (i < D)%nat -> 0 < entry x i i.

Definition unit_norm_row (x : matrix) : Prop :=
  forall i row, x !! i = Some row -> Rabs (sum_sq row - 1) < 1e-6.


(** A short name for the vine transform. *)
Module Vine := _PartialCorrToCorrCholeskyTransform.

(** Every entry of [row] from column [k] on is zero. *)
Definition zero_from (k : nat) (row : list R) : Prop :=
  forall c v, (k <= c)%nat -> row !! c = Some v -> v = 0.

(** Row [r] is finished: zero after the diagonal, positive on the diagonal,
    of norm one. *)
Definition final_row (r : nat) (row : list R) : Prop :=
  zero_from (S r) row /\ (exists v, row !! r = Some v /\ 0 < v) /\ sum_sq row = 1.

(** A row below the current column [j]: filled up to column [j - 1], with
    norm less than one. *)
Definition pending_row (j : nat) (row : list R) : Prop :=
  zero_from j row /\ sum_sq row < 1.

(** What holds when the loop of [_call] reaches column [j]. *)
Record call_inv (D : nat) (z : tensor) (j : nat) (s : Vine.call_state) : Prop := {
  inv_shape : is_matrix D D (Vine.st_x s);
  inv_i : (Vine.st_i s <= length z)%nat;
  inv_left : (2 * (length z - Vine.st_i s) = (D - j) * (D - j - 1))%nat;
  inv_final : forall r row,
    (r < j)%nat -> Vine.st_x s !! r = Some row -> final_row r row;
  inv_pending : forall r row,
    (j <= r)%nat -> Vine.st_x s !! r = Some row -> pending_row j row;
  inv_last : exists l,
    Vine.next_last_squared_x (Vine.st_last_squared_x s) (Vine.st_current_x s) = Ok l
    /\ length l = (D - j)%nat
    /\ forall t row, Vine.st_x s !! (j + t)%nat = Some row -> l !! t = Some (sum_sq row)
}.

(** The open interval (-1, 1), the domain of the vine transform. *)
Definition in_unit_interval (v : R) : Prop := -1 < v < 1.

(** The image of a loop state of the generic forward map, at the real
    arithmetic, among the loop states of the model. *)
Definition real_state (s : Generic.call_state (A := R)) : Vine.call_state :=
  Vine.CallState (Generic.st_x s) (Generic.st_i s)
    (Generic.st_last_squared_x s) (Generic.st_current_x s).

(** The free coordinate of the forward map for [D = 2]: the entry [x[1,0]]
    as a function of the one partial correlation. *)
Definition order_two_coordinate (t : R) : R :=
  match Vine._call [t] with
  | Ok x => entry x 1 0
  | Raise _ => 0
  end.

(** The strictly-lower-triangular entries of [x], row by row. *)
Definition strict_lower_entries (x : matrix) : list R :=
  mjoin (imap (fun i row => take i row) x).

(** The reading of C2: one term [ln (1 - t^2)] for every
    strictly-lower-triangular entry [t]. *)
Definition log_abs_det_by_entry (x : matrix) : R :=
  0.5 * Torch.sum ((fun t => ln (1 - t ^ 2)) <$> strict_lower_entries x).

(** A valid factor of order three with two entries left of the diagonal in
    its last row. *)
Definition factor3 : matrix := [[1; 0; 0]; [0; 1; 0]; [1/3; 2/3; 2/3]].

(** One coordinate of the forward map. *)
Definition tanh_coordinate (v : R) : R := nth 0 (_TanhTransform._call [v]) 0.

(** One coordinate of [log_abs_det_jacobian(x, y)] at [y = _call(x)]. *)
Definition tanh_log_jacobian_coordinate (v : R) : R :=
  nth 0 (_TanhTransform.log_abs_det_jacobian [v] (_TanhTransform._call [v])) 0.

(** [f lo + f (lo + 1) + ... + f (lo + n - 1)]. *)
Fixpoint sum_from (lo n : nat) (f : nat -> R) : R :=
  match n with
  | O => 0
  | S n' => f lo + sum_from (S lo) n' f
  end.

(** The formula of the specification:
    [(K-1) lgamma(eta + (K-1)/2)
       - sum_{k=1}^{K-1} (k (ln(pi)/2) + lgamma(eta + (K-1-k)/2))]. *)
Definition lkj_normalizer (lgamma : R -> R) (eta : R) (K : nat) : R :=
  (INR K - 1) * lgamma (eta + (INR K - 1) / 2)
  - sum_from 1 (K - 1)
      (fun k => INR k * (ln PI / 2) + lgamma (eta + (INR K - 1 - INR k) / 2)).

(** A sequence of calls of [lkj_constant] on one instance, with the
    arguments of each call; the values returned, in order. *)
Fixpoint lkj_constant_calls (lgamma : R -> R) (self : LKJCholeskyFactor.instance)
    (args : list (R * nat)) : result (list R * LKJCholeskyFactor.instance) :=
  match args with
  | [] => Ok ([], self)
  | a :: rest =>
      r ← LKJCholeskyFactor.lkj_constant lgamma self a.1 a.2;
      rs ← lkj_constant_calls lgamma r.2 rest;
      Ok (r.1 :: rs.1, rs.2)
  end.

(** The number of entries the groups [k0], ..., [k0 + m - 1] of the
    constructor's loop write: group [k] has [d - (k + 1)] entries. *)
Fixpoint group_total (d k0 m : nat) : nat :=
  match m with
  | O => O
  | S m' => (d - (k0 + 1) + group_total d (S k0) m')%nat
  end.

(** The groups [k0], ..., [k0 + m - 1] in closed form: group [k] holds
    [d - (k + 1)] copies of [alpha - 0.5 (k + 1)]. *)
Definition concentration_groups (d : nat) (alpha : R) (k0 m : nat) : tensor :=
  mjoin ((fun k => replicate (d - (k + 1)) (alpha - 0.5 * INR (k + 1))) <$> seq k0 m).

(** * Properties *)

(** ** Matrices by their entries *)

Lemma bind_Ok {A B} (a : A) (f : A -> result B) : (Ok a ≫= f) = f a.
Proof. reflexivity. Qed.

Lemma is_matrix_row n m x i :
  is_matrix n m x -> (i < n)%nat -> exists row, x !! i = Some row /\ length row = m.
Proof.
  intros [Hn Hm] Hi.
  destruct (lookup_lt_is_Some_2 x i) as [row Hrow]; [lia|].
  exists row; split; [done | by eapply Hm].
Qed.

Lemma entry_lookup x i j row v :
  x !! i = Some row -> row !! j = Some v -> entry x i j = v.
Proof. intros Hi Hj. unfold entry. rewrite Hi. simpl. by rewrite Hj. Qed.

Lemma is_matrix_entry n m x i j :
  is_matrix n m x -> (i < n)%nat -> (j < m)%nat ->
  exists row, x !! i = Some row /\ length row = m /\ row !! j = Some (entry x i j).
Proof.
  intros Hx Hi Hj.
  destruct (is_matrix_row n m x i Hx Hi) as (row & Hrow & Hlen).
  destruct (lookup_lt_is_Some_2 row j) as [v Hv]; [lia|].
  exists row. repeat split; try done.
  by rewrite (entry_lookup x i j row v).
Qed.

Lemma ncols_is_matrix n m x : is_matrix n m x -> (0 < n)%nat -> Torch.ncols x = m.
Proof.
  intros [Hn Hm] Hpos. destruct x as [|row x]; simpl in *; [lia|].
  by apply (Hm 0%nat).
Qed.

Lemma min_bool_nonempty (l : list bool) :
  (0 < length l)%nat -> Torch.min_bool l = Ok (forallb (fun v => v) l).
Proof. destruct l; simpl; [lia | done]. Qed.

Lemma forallb_id_true (l : list bool) :
  forallb (fun v => v) l = true <-> forall b, b ∈ l -> b = true.
Proof.
  rewrite forallb_forall. split; intros H b Hb; apply H.
  - by apply list_elem_of_In.
  - by apply list_elem_of_In.
Qed.

(** ** The validator, entry by entry *)

Lemma diagonal_square D x :
  is_matrix D D x -> Torch.diagonal x = (fun i => entry x i i) <$> seq 0 D.
Proof.
  intros Hx. unfold Torch.diagonal, Torch.nrows.
  assert (Hmin : Nat.min (length x) (Torch.ncols x) = D).
  { destruct Hx as [Hn Hm]. destruct D as [|D].
    - rewrite Hn. done.
    - rewrite (ncols_is_matrix (S D) (S D) x); [lia | done | lia]. }
  rewrite Hmin.
  assert (Hall : forall k, k ∈ seq 0 D ->
            (row ← x !! k; row !! k) = Some (entry x k k)).
  { intros k Hk. apply elem_of_seq in Hk.
    destruct (is_matrix_entry D D x k k Hx) as (row & Hrow & _ & Hv); [lia..|].
    rewrite Hrow. simpl. done. }
  revert Hall. generalize (seq 0 D). intros l Hl.
  induction l as [|k l IH]; [done|].
  simpl. rewrite Hl by apply list_elem_of_here. simpl.
  f_equal. apply IH. intros k' Hk'. apply Hl. by apply list_elem_of_further.
Qed.

Lemma tril_compare_true D x :
  is_matrix D D x ->
  forallb (fun v => v)
    (mjoin (zip_with (zip_with (fun a b : R => bool_decide (a = b))) (Torch.tril 0 x) x))
  = true
  <-> lower_triangular D x.
Proof.
  intros Hx. rewrite forallb_id_true. split.
  - intros H i j Hij Hj.
    destruct (is_matrix_entry D D x i j Hx) as (row & Hrow & Hlen & Hv); [lia..|].
    set (row' := imap (fun j v => if decide (Z.of_nat j - Z.of_nat i <= 0)%Z then v else 0) row).
    assert (Hrow' : Torch.tril 0 x !! i = Some row').
    { unfold Torch.tril. rewrite list_lookup_imap, Hrow. done. }
    assert (Hv' : row' !! j = Some 0).
    { unfold row'. rewrite list_lookup_imap, Hv. simpl.
      destruct (decide (Z.of_nat j - Z.of_nat i <= 0)%Z); [lia | done]. }
    specialize (H (bool_decide (0 = entry x i j))).
    symmetry. eapply bool_decide_eq_true_1. apply H.
    apply list_elem_of_join. exists (zip_with (fun a b : R => bool_decide (a = b)) row' row).
    split.
    + apply elem_of_lookup_zip_with. by exists j, 0, (entry x i j).
    + apply elem_of_lookup_zip_with. by exists i, row', row.
  - intros H b Hb.
    apply list_elem_of_join in Hb as (l & Hb & Hl).
    apply elem_of_lookup_zip_with in Hl as (i & row' & row & -> & Hrow' & Hrow).
    apply elem_of_lookup_zip_with in Hb as (j & a & v & -> & Ha & Hv).
    unfold Torch.tril in Hrow'.
    rewrite list_lookup_imap, Hrow in Hrow'.
    simpl in Hrow'. injection Hrow' as <-.
    rewrite list_lookup_imap, Hv in Ha. simpl in Ha. injection Ha as <-.
    apply bool_decide_eq_true_2.
    destruct (decide (Z.of_nat j - Z.of_nat i <= 0)%Z) as [Hle|Hgt]; [done|].
    assert (Hj : (j < D)%nat).
    { destruct Hx as [_ Hm]. rewrite <- (Hm i row Hrow). by eapply lookup_lt_Some. }
    rewrite <- (H i j); [| lia | done].
    by eapply entry_lookup.
Qed.

Lemma diagonal_compare_true D x :
  is_matrix D D x ->
  forallb (fun v => v) ((fun v => bool_decide (0 < v)) <$> Torch.diagonal x) = true
  <-> positive_diagonal D x.
Proof.
  intros Hx. rewrite (diagonal_square D x Hx), forallb_id_true. split.
  - intros H i Hi. eapply bool_decide_eq_true_1. apply H.
    apply list_elem_of_fmap. exists (entry x i i). split; [done|].
    apply list_elem_of_fmap. exists i. split; [done|]. apply elem_of_seq. lia.
  - intros H b Hb.
    apply list_elem_of_fmap in Hb as (v & -> & Hv).
    apply list_elem_of_fmap in Hv as (i & -> & Hi).
    apply elem_of_seq in Hi. apply bool_decide_eq_true_2. apply H. lia.
Qed.

Lemma row_sums_compare_true (x : matrix) :
  forallb (fun v => v)
    ((fun s => bool_decide (Rabs (s - 1) < 1e-6)) <$> Torch.row_sums (Torch.pow2 <$> x))
  = true
  <-> unit_norm_row x.
Proof.
  rewrite forallb_id_true. unfold Torch.row_sums. split.
  - intros H i row Hrow. eapply bool_decide_eq_true_1. apply H.
    apply list_elem_of_fmap. exists (sum_sq row). split; [done|].
    apply list_elem_of_fmap. exists (Torch.pow2 row). split; [done|].
    apply list_elem_of_fmap. exists row. split; [done|].
    by eapply list_elem_of_lookup_2.
  - intros H b Hb.
    apply list_elem_of_fmap in Hb as (s & -> & Hs).
    apply list_elem_of_fmap in Hs as (sq & -> & Hsq).
    apply list_elem_of_fmap in Hsq as (row & -> & Hrow).
    apply list_elem_of_lookup in Hrow as (i & Hrow).
    apply bool_decide_eq_true_2. by eapply H.
Qed.

(** On a square matrix with at least one row the validator returns, and its
    answer is the conjunction of the three conditions. *)
Lemma check_reflect D x :
  (1 <= D)%nat -> is_matrix D D x ->
  exists b, _CorrCholesky.check x = Ok b /\
    (b = true <-> lower_triangular D x /\ positive_diagonal D x /\ unit_norm_row x).
Proof.
  intros HD Hx. unfold _CorrCholesky.check. cbv zeta.
  destruct (is_matrix_entry D D x 0 0 Hx) as (row0 & Hrow0 & Hlen0 & Hv0); [lia..|].
  rewrite (min_bool_nonempty (mjoin _)); cycle 1.
  { destruct x as [|r x]; [done|]. simpl in Hrow0. injection Hrow0 as ->.
    destruct row0; simpl in *; lia. }
  rewrite bind_Ok.
  rewrite (min_bool_nonempty (_ <$> Torch.diagonal x)); cycle 1.
  { rewrite (diagonal_square D x Hx). rewrite !length_fmap, length_seq. lia. }
  rewrite bind_Ok.
  rewrite (min_bool_nonempty (_ <$> Torch.row_sums _)); cycle 1.
  { unfold Torch.row_sums. rewrite !length_fmap. destruct Hx as [-> _]. lia. }
  rewrite bind_Ok.
  eexists. split; [reflexivity|].
  rewrite !andb_true_iff, (tril_compare_true D x Hx), (diagonal_compare_true D x Hx),
    row_sums_compare_true.
  tauto.
Qed.

(** ** Element and column assignment *)

Lemma setitem2_spec n m x i j v row :
  is_matrix n m x -> x !! i = Some row -> (j < m)%nat ->
  exists x', Torch.setitem2 x i j v = Ok x' /\ is_matrix n m x' /\
    x' !! i = Some (<[j := v]> row) /\
    (forall r, r <> i -> x' !! r = x !! r).
Proof.
  intros [Hn Hm] Hrow Hj. unfold Torch.setitem2. rewrite Hrow.
  rewrite decide_True by (rewrite (Hm i row Hrow); lia).
  assert (Hi : (i < length x)%nat) by (by eapply lookup_lt_Some).
  eexists. split; [reflexivity|]. split; [|split].
  - split; [by rewrite length_insert|].
    intros r row' Hr. destruct (decide (r = i)) as [->|Hne].
    + rewrite list_lookup_insert_eq in Hr by done. injection Hr as <-.
      rewrite length_insert. by eapply Hm.
    + rewrite list_lookup_insert_ne in Hr by done. by eapply Hm.
  - by rewrite list_lookup_insert_eq.
  - intros r Hne. by rewrite list_lookup_insert_ne.
Qed.

Lemma setcol_spec n m x lo j vs :
  is_matrix n m x -> (0 < n)%nat -> (j < m)%nat -> length vs = (n - lo)%nat ->
  exists x', Torch.setcol x lo j vs = Ok x' /\ is_matrix n m x' /\
    (forall r, (r < lo)%nat -> x' !! r = x !! r) /\
    (forall r row v, (lo <= r)%nat -> x !! r = Some row -> vs !! (r - lo)%nat = Some v ->
       x' !! r = Some (<[j := v]> row)).
Proof.
  intros Hx Hn Hj Hvs. unfold Torch.setcol.
  rewrite (ncols_is_matrix n m x Hx Hn). rewrite decide_True by done.
  unfold Torch.expand_to, Torch.nrows. destruct Hx as [Hlen Hm].
  rewrite decide_True by lia. rewrite bind_Ok.
  eexists. split; [reflexivity|]. split; [|split].
  - split; [by rewrite length_imap|].
    intros r row' Hr. apply list_lookup_imap_Some in Hr as (row & Hrow & ->).
    destruct (decide (lo <= r)%nat); [|by eapply Hm].
    destruct (vs !! (r - lo)%nat); [|by eapply Hm].
    rewrite length_insert. by eapply Hm.
  - intros r Hr. rewrite list_lookup_imap.
    destruct (x !! r) as [row|]; [|done]. simpl.
    by rewrite decide_False by lia.
  - intros r row v Hr Hrow Hv. rewrite list_lookup_imap, Hrow. simpl.
    rewrite decide_True by done. by rewrite Hv.
Qed.

(** ** Sums of squares *)

Lemma sum_sq_nil : sum_sq [] = 0.
Proof. reflexivity. Qed.

Lemma sum_sq_cons v row : sum_sq (v :: row) = v ^ 2 + sum_sq row.
Proof. reflexivity. Qed.

Lemma sum_sq_replicate_0 n : sum_sq (replicate n 0) = 0.
Proof.
  induction n as [|n IH]; [done|]. simpl replicate. rewrite sum_sq_cons, IH. lra.
Qed.

Lemma sum_sq_insert row j old v :
  row !! j = Some old -> sum_sq (<[j := v]> row) = sum_sq row - old ^ 2 + v ^ 2.
Proof.
  revert j. induction row as [|a row IH]; intros j Hj; [done|].
  destruct j as [|j]; simpl in *.
  - injection Hj as ->. rewrite !sum_sq_cons. lra.
  - rewrite !sum_sq_cons, (IH j Hj). lra.
Qed.

Lemma sum_sq_nonneg row : 0 <= sum_sq row.
Proof.
  induction row as [|a row IH]; [rewrite sum_sq_nil; lra|].
  rewrite sum_sq_cons. assert (0 <= a ^ 2) by (apply pow2_ge_0). lra.
Qed.

(** ** The forward map of the vine transform: the loop invariant *)

Lemma pointwise_same_length f (a b : tensor) :
  length a = length b -> Torch.pointwise f a b = Ok (zip_with f a b).
Proof. intros H. unfold Torch.pointwise. by rewrite decide_True. Qed.

Lemma zero_from_insert k j v row :
  (j < k)%nat -> zero_from j row -> zero_from k (<[j := v]> row).
Proof.
  intros Hjk Hz c w Hc Hw. rewrite list_lookup_insert_ne in Hw by lia.
  apply (Hz c w); [lia | done].
Qed.

Lemma zero_from_lookup k row c :
  zero_from k row -> (k <= c)%nat -> (c < length row)%nat -> row !! c = Some 0.
Proof.
  intros Hz Hc Hlen. destruct (lookup_lt_is_Some_2 row c Hlen) as [v Hv].
  by rewrite Hv, (Hz c v Hc Hv).
Qed.

Lemma scaled_square_lt_1 a S :
  in_unit_interval a -> 0 <= S < 1 -> S + (a * sqrt (1 - S)) ^ 2 < 1.
Proof.
  intros [Ha1 Ha2] [HS0 HS1].
  replace ((a * sqrt (1 - S)) ^ 2) with (a ^ 2 * sqrt (1 - S) ^ 2) by ring.
  rewrite pow2_sqrt by lra.
  assert (a ^ 2 < 1) by nra. nra.
Qed.

Lemma call_body_inv D z j s :
  Forall in_unit_interval z -> (1 <= j)%nat -> (j < D)%nat ->
  call_inv D z j s ->
  exists s', Vine.call_body D z j s = Ok s' /\ call_inv D z (S j) s'.
Proof.
  intros Hz Hj1 HjD [Hshape Hi Hleft Hfinal Hpending (l & Hl & Hlen & Hent)].
  destruct s as [x i last cur]. simpl in *.
  unfold Vine.call_body. simpl. rewrite Hl, bind_Ok.
  (* the diagonal entry *)
  destruct (is_matrix_row D D x j Hshape HjD) as (rowj & Hrowj & Hlenj).
  assert (Hl0 : l !! 0%nat = Some (sum_sq rowj)).
  { apply Hent. by rewrite Nat.add_0_r. }
  unfold Torch.getitem. rewrite Hl0, bind_Ok.
  destruct (Hpending j rowj (le_n _) Hrowj) as [Hzj HSj].
  destruct (setitem2_spec D D x j j (sqrt (1 - sum_sq rowj)) rowj Hshape Hrowj HjD)
    as (x1 & -> & Hshape1 & Hx1j & Hx1r).
  rewrite bind_Ok.
  (* the rest of the column *)
  set (d := (D - 1 - j)%nat).
  assert (Hd : (d <= length z - i)%nat) by (unfold d; nia).
  set (new_z := Torch.slice i (i + d) z).
  assert (Hnewz : length new_z = d).
  { unfold new_z, Torch.slice. rewrite length_take, length_drop. lia. }
  rewrite pointwise_same_length; cycle 1.
  { unfold Torch.tsqrt, Torch.rsub1. rewrite !length_fmap, length_drop. lia. }
  rewrite bind_Ok.
  set (cur' := zip_with Rmult new_z (Torch.tsqrt (Torch.rsub1 (drop 1 l)))).
  assert (Hcur' : length cur' = d).
  { unfold cur', Torch.tsqrt, Torch.rsub1.
    rewrite length_zip_with, !length_fmap, length_drop. lia. }
  destruct (setcol_spec D D x1 (j + 1) j cur' Hshape1) as (x2 & -> & Hshape2 & Hx2lo & Hx2hi);
    [lia | done | unfold d in Hcur'; lia |].
  rewrite bind_Ok.
  (* the rows below the diagonal, after the assignments *)
  assert (Hbelow : forall r, (S j <= r)%nat -> (r < D)%nat ->
    exists rowr a,
      x !! r = Some rowr /\ in_unit_interval a /\
      l !! (r - j)%nat = Some (sum_sq rowr) /\
      cur' !! (r - (j + 1))%nat = Some (a * sqrt (1 - sum_sq rowr)) /\
      x2 !! r = Some (<[j := a * sqrt (1 - sum_sq rowr)]> rowr)).
  { intros r Hr1 Hr2.
    destruct (is_matrix_row D D x r Hshape Hr2) as (rowr & Hrowr & Hlenr).
    destruct (lookup_lt_is_Some_2 new_z (r - (j + 1))) as [a Ha]; [lia|].
    assert (Hlr : l !! (r - j)%nat = Some (sum_sq rowr)).
    { apply Hent. by replace (j + (r - j))%nat with r by lia. }
    assert (Hc : cur' !! (r - (j + 1))%nat = Some (a * sqrt (1 - sum_sq rowr))).
    { unfold cur'. rewrite lookup_zip_with, Ha. simpl.
      unfold Torch.tsqrt, Torch.rsub1. rewrite !list_lookup_fmap, lookup_drop.
      replace (1 + (r - (j + 1)))%nat with (r - j)%nat by lia.
      by rewrite Hlr. }
    exists rowr, a. repeat split; try done.
    - assert (Hin : Forall in_unit_interval new_z).
      { unfold new_z, Torch.slice. by apply Forall_take, Forall_drop. }
      destruct (Forall_lookup_1 _ _ _ _ Hin Ha) as [? ?]. done.
    - assert (Hin : Forall in_unit_interval new_z).
      { unfold new_z, Torch.slice. by apply Forall_take, Forall_drop. }
      destruct (Forall_lookup_1 _ _ _ _ Hin Ha) as [? ?]. done.
    - apply Hx2hi; [lia | | done]. rewrite Hx1r by lia. done. }
  eexists. split; [reflexivity|].
  split; simpl.
  - done.
  - fold d. lia.
  - fold d. nia.
  - intros r row Hr Hrow. rewrite Hx2lo in Hrow by lia.
    destruct (decide (r = j)) as [->|Hne].
    + rewrite Hx1j in Hrow. injection Hrow as <-.
      assert (Hjj : rowj !! j = Some 0) by (apply (zero_from_lookup j); [done | lia | lia]).
      split; [|split].
      * by apply zero_from_insert; [lia|].
      * exists (sqrt (1 - sum_sq rowj)). split.
        -- apply list_lookup_insert_eq. lia.
        -- apply sqrt_lt_R0. lra.
      * rewrite (sum_sq_insert rowj j 0) by done. rewrite pow2_sqrt by lra. lra.
    + rewrite Hx1r in Hrow by done. apply Hfinal; [lia | done].
  - intros r row Hr Hrow.
    assert (HrD : (r < D)%nat).
    { destruct Hshape2 as [<- _]. by eapply lookup_lt_Some. }
    destruct (Hbelow r Hr HrD) as (rowr & a & Hrowr & Ha & Hlr & Hc & Hx2r).
    rewrite Hx2r in Hrow. injection Hrow as <-.
    destruct (Hpending r rowr ltac:(lia) Hrowr) as [Hzr HSr].
    assert (Hlenr : length rowr = D) by (destruct Hshape as [_ Hm]; by eapply Hm).
    assert (Hrj : rowr !! j = Some 0) by (apply (zero_from_lookup j); [done | lia | lia]).
    split.
    + by apply zero_from_insert; [lia|].
    + rewrite (sum_sq_insert rowr j 0) by done.
      pose proof (sum_sq_nonneg rowr).
      pose proof (scaled_square_lt_1 a (sum_sq rowr) Ha ltac:(lra)). lra.
  - exists (zip_with Rplus (drop 1 l) (Torch.pow2 cur')). split; [|split].
    + apply pointwise_same_length. unfold Torch.pow2.
      rewrite length_fmap, length_drop. lia.
    + unfold Torch.pow2. rewrite length_zip_with, length_fmap, length_drop. lia.
    + intros t row Hrow.
      assert (HrD : (S (j + t) < D)%nat).
      { destruct Hshape2 as [<- _]. by eapply lookup_lt_Some. }
      destruct (Hbelow (S (j + t)) ltac:(lia) HrD) as (rowr & a & Hrowr & Ha & Hlr & Hc & Hx2r).
      rewrite Hx2r in Hrow. injection Hrow as <-.
      destruct (Hpending (S (j + t)) rowr ltac:(lia) Hrowr) as [Hzr HSr].
      assert (Hlenr : length rowr = D) by (destruct Hshape as [_ Hm]; by eapply Hm).
      assert (Hrj : rowr !! j = Some 0) by (apply (zero_from_lookup j); [done | lia | lia]).
      rewrite lookup_zip_with, lookup_drop.
      replace (1 + t)%nat with (S (j + t) - j)%nat by lia. rewrite Hlr. simpl.
      unfold Torch.pow2. rewrite list_lookup_fmap.
      replace t with (S (j + t) - (j + 1))%nat at 1 by lia. rewrite Hc. simpl.
      f_equal. rewrite (sum_sq_insert rowr j 0) by done. lra.
Qed.

Lemma call_loop_inv D z n : forall j s,
  Forall in_unit_interval z -> (1 <= j)%nat -> (j + n = D)%nat ->
  call_inv D z j s ->
  exists s', for_range j n (Vine.call_body D z) s = Ok s' /\ call_inv D z D s'.
Proof.
  induction n as [|n IH]; intros j s Hz Hj HD Hinv.
  - exists s. split; [done|]. assert (D = j) as -> by lia. done.
  - destruct (call_body_inv D z j s Hz Hj ltac:(lia) Hinv) as (s1 & Hs1 & Hinv1).
    destruct (IH (S j) s1 Hz ltac:(lia) ltac:(lia) Hinv1) as (s' & Hs' & Hinv').
    exists s'. split; [|done]. simpl. by rewrite Hs1, bind_Ok.
Qed.

Lemma triangular_double D : (D * (D - 1) / 2 * 2 = D * (D - 1))%nat.
Proof.
  destruct (Nat.Even_or_Odd D) as [[k ->]|[k ->]].
  - replace (2 * k * (2 * k - 1))%nat with (k * (2 * k - 1) * 2)%nat by lia.
    by rewrite Nat.div_mul.
  - replace ((2 * k + 1) * (2 * k + 1 - 1))%nat with ((2 * k + 1) * k * 2)%nat by lia.
    by rewrite Nat.div_mul.
Qed.

Lemma dimension_triangular D L :
  (1 <= D)%nat -> (L * 2 = D * (D - 1))%nat -> Vine.dimension L = Ok D.
Proof.
  intros HD HL. unfold Vine.dimension.
  assert (Hsq : (1 + 8 * L = (2 * D - 1) * (2 * D - 1))%nat) by nia.
  rewrite Hsq, Nat.sqrt_square. rewrite decide_True by done.
  f_equal. replace (1 + (2 * D - 1))%nat with (D * 2)%nat by lia.
  by rewrite Nat.div_mul.
Qed.

Lemma zero_from_replicate k n : zero_from k (replicate n 0).
Proof. intros c v _ Hv. by apply lookup_replicate_1 in Hv as [-> _]. Qed.

Lemma is_matrix_zeros n m : is_matrix n m (Torch.zeros n m).
Proof.
  unfold Torch.zeros. split; [by rewrite length_replicate|].
  intros i row Hrow. apply lookup_replicate_1 in Hrow as [-> _].
  by rewrite length_replicate.
Qed.

(** The statements of [_call] before the loop establish the invariant at
    column 1. *)
Lemma call_init_inv D z :
  Forall in_unit_interval z -> (1 <= D)%nat -> (length z * 2 = D * (D - 1))%nat ->
  exists x1 x2,
    Torch.setitem2 (Torch.zeros D D) 0 0 1 = Ok x1 /\
    Torch.setcol x1 1 0 (Torch.slice 0 (D - 1) z) = Ok x2 /\
    call_inv D z 1 (Vine.CallState x2 (D - 1) None (Torch.slice 0 (D - 1) z)).
Proof.
  intros Hz HD HL.
  assert (Hrow0 : Torch.zeros D D !! 0%nat = Some (replicate D 0)).
  { unfold Torch.zeros. by apply lookup_replicate_2. }
  destruct (setitem2_spec D D _ 0 0 1 _ (is_matrix_zeros D D) Hrow0 ltac:(lia))
    as (x1 & Hx1 & Hshape1 & Hx10 & Hx1r).
  set (cur := Torch.slice 0 (D - 1) z).
  assert (Hcur : length cur = (D - 1)%nat).
  { unfold cur, Torch.slice. rewrite length_take, length_drop. nia. }
  assert (Hin : Forall in_unit_interval cur).
  { unfold cur, Torch.slice. by apply Forall_take, Forall_drop. }
  destruct (setcol_spec D D x1 1 0 cur Hshape1) as (x2 & Hx2 & Hshape2 & Hx2lo & Hx2hi);
    [lia | lia | done |].
  exists x1, x2. split; [done|]. split; [done|].
  assert (Hbelow : forall r row, (1 <= r)%nat -> x2 !! r = Some row ->
    exists a, cur !! (r - 1)%nat = Some a /\ in_unit_interval a /\
              row = <[0%nat := a]> (replicate D 0)).
  { intros r row Hr Hrow.
    assert (HrD : (r < D)%nat).
    { destruct Hshape2 as [<- _]. by eapply lookup_lt_Some. }
    destruct (lookup_lt_is_Some_2 cur (r - 1)) as [a Ha]; [lia|].
    exists a. split; [done|]. split; [by eapply Forall_lookup_1|].
    assert (Hx1row : x1 !! r = Some (replicate D 0)).
    { rewrite Hx1r by lia. unfold Torch.zeros. by apply lookup_replicate_2. }
    rewrite (Hx2hi r _ a Hr Hx1row Ha) in Hrow. by injection Hrow as <-. }
  assert (Hz0 : forall a, sum_sq (<[0%nat := a]> (replicate D 0)) = a ^ 2).
  { intros a. rewrite (sum_sq_insert _ 0 0) by (apply lookup_replicate_2; lia).
    rewrite sum_sq_replicate_0. lra. }
  split; simpl.
  - done.
  - nia.
  - nia.
  - intros r row Hr Hrow. assert (r = 0%nat) as -> by lia.
    rewrite Hx2lo, Hx10 in Hrow by lia. injection Hrow as <-.
    split; [|split].
    + apply zero_from_insert; [lia | apply zero_from_replicate].
    + exists 1. split; [|lra]. apply list_lookup_insert_eq. rewrite length_replicate. lia.
    + rewrite Hz0. lra.
  - intros r row Hr Hrow.
    destruct (Hbelow r row Hr Hrow) as (a & Ha & [Ha1 Ha2] & ->).
    split.
    + apply zero_from_insert; [lia | apply zero_from_replicate].
    + rewrite Hz0. nra.
  - exists (Torch.pow2 cur). split; [done|]. split.
    + unfold Torch.pow2. by rewrite length_fmap.
    + intros t row Hrow.
      destruct (Hbelow (1 + t)%nat row ltac:(lia) Hrow) as (a & Ha & _ & ->).
      replace (1 + t - 1)%nat with t in Ha by lia.
      unfold Torch.pow2. rewrite list_lookup_fmap, Ha. simpl. by rewrite Hz0.
Qed.

(** The forward map returns a [D] by [D] matrix all of whose rows are
    finished. *)
Lemma call_final_rows D z :
  Forall in_unit_interval z -> (1 <= D)%nat -> (length z * 2 = D * (D - 1))%nat ->
  exists x, Vine._call z = Ok x /\ is_matrix D D x /\
    forall r row, x !! r = Some row -> final_row r row.
Proof.
  intros Hz HD HL.
  destruct (call_init_inv D z Hz HD HL) as (x1 & x2 & Hx1 & Hx2 & Hinv).
  destruct (call_loop_inv D z (D - 1) 1 _ Hz ltac:(lia) ltac:(lia) Hinv)
    as (s & Hs & [Hshape _ _ Hfinal _ _]).
  exists (Vine.st_x s). split; [|split].
  - unfold Vine._call. rewrite (dimension_triangular D _ HD HL), bind_Ok.
    cbv zeta. rewrite Hx1, bind_Ok, Hx2, bind_Ok, Hs, bind_Ok. done.
  - done.
  - intros r row Hrow. apply Hfinal; [|done].
    destruct Hshape as [<- _]. by eapply lookup_lt_Some.
Qed.

Lemma final_rows_valid D x :
  is_matrix D D x -> (forall r row, x !! r = Some row -> final_row r row) ->
  lower_triangular D x /\ positive_diagonal D x /\ unit_norm_row x.
Proof.
  intros Hx Hfinal. split; [|split].
  - intros i j Hij Hj.
    destruct (is_matrix_entry D D x i j Hx ltac:(lia) Hj) as (row & Hrow & _ & Hv).
    destruct (Hfinal i row Hrow) as (Hz & _ & _). apply (Hz j); [lia | done].
  - intros i Hi.
    destruct (is_matrix_entry D D x i i Hx Hi Hi) as (row & Hrow & _ & Hv).
    destruct (Hfinal i row Hrow) as (_ & (v & Hv' & Hpos) & _).
    rewrite Hv in Hv'. by injection Hv' as ->.
  - intros i row Hrow. destruct (Hfinal i row Hrow) as (_ & _ & ->).
    replace (1 - 1) with 0 by lra. rewrite Rabs_R0. lra.
Qed.

(** ** The inverse map of the vine transform *)

Lemma omap_all_Some {A B} (f : A -> option B) (g : A -> B) (l : list A) :
  (forall a, a ∈ l -> f a = Some (g a)) -> omap f l = g <$> l.
Proof.
  induction l as [|a l IH]; intros H; [done|].
  simpl. rewrite (H a) by apply list_elem_of_here. simpl.
  f_equal. apply IH. intros b Hb. apply H. by apply list_elem_of_further.
Qed.

Lemma getcol_length n m x lo j :
  is_matrix n m x -> (0 < n)%nat -> (j < m)%nat ->
  exists c, Torch.getcol x lo j = Ok c /\ length c = (n - lo)%nat.
Proof.
  intros Hx Hn Hj. unfold Torch.getcol.
  rewrite (ncols_is_matrix n m x Hx Hn). rewrite decide_True by done.
  eexists. split; [reflexivity|].
  rewrite (omap_all_Some _ (fun row => default 0 (row !! j))).
  - rewrite length_fmap, length_drop. by destruct Hx as [-> _].
  - intros row Hrow. apply list_elem_of_lookup in Hrow as (i & Hrow).
    rewrite lookup_drop in Hrow. destruct Hx as [_ Hm].
    destruct (lookup_lt_is_Some_2 row j) as [v Hv]; [rewrite (Hm _ _ Hrow); lia|].
    by rewrite Hv.
Qed.

(** On a square matrix of order two or more, [_inverse] never returns a
    vector with [D (D - 1) / 2] coordinates: it returns two coordinates for
    [D = 2], four for [D = 3], and raises for larger [D]. *)
Lemma inverse_wrong_length D x z :
  (2 <= D)%nat -> is_matrix D D x -> Vine._inverse x = Ok z ->
  length z <> (D * (D - 1) / 2)%nat.
Proof.
  intros HD Hx. unfold Vine._inverse, Torch.nrows.
  rewrite (ncols_is_matrix D D x Hx ltac:(lia)).
  pose proof Hx as [Hlen _]. rewrite Hlen.
  rewrite decide_False by (intros Hne; by apply Hne).
  destruct (getcol_length D D x 1 0 Hx ltac:(lia) ltac:(lia)) as (c0 & -> & Hc0).
  rewrite bind_Ok. cbv zeta.
  rewrite (decide_True (P := (2 <= D)%nat)) by done.
  destruct (getcol_length D D x (D - 1) (D - 1) Hx ltac:(lia) ltac:(lia)) as (c & Hc & Hclen).
  destruct D as [|[|[|[|D]]]]; try lia.
  - (* D = 2 *)
    destruct c0 as [|a [|? ?]]; simpl in Hc0; try lia.
    destruct c as [|cv [|? ?]]; simpl in Hclen; try lia.
    simpl in Hc. simpl. rewrite Hc. simpl.
    intros Hz. injection Hz as <-. simpl. lia.
  - (* D = 3 *)
    destruct c0 as [|a [|b [|? ?]]]; simpl in Hc0; try lia.
    destruct c as [|cv [|? ?]]; simpl in Hclen; try lia.
    simpl in Hc. simpl. rewrite Hc. simpl.
    intros Hz. injection Hz as <-. simpl. lia.
  - (* D >= 4 *)
    destruct c0 as [|a [|b [|b' c0]]]; simpl in Hc0; try lia.
    simpl. unfold Torch.inplace. simpl.
    rewrite decide_False by lia.
    simpl. discriminate.
Qed.

Lemma tanh_in_unit_interval v : in_unit_interval (tanh v).
Proof.
  unfold in_unit_interval, tanh, sinh, cosh.
  pose proof (exp_pos v) as Ha. pose proof (exp_pos (- v)) as Hb.
  set (a := exp v) in *. set (b := exp (- v)) in *.
  assert (H1 : 0 < ((a - b) / 2 + (a + b) / 2) / ((a + b) / 2))
    by (apply Rdiv_lt_0_compat; lra).
  assert (H2 : 0 < ((a + b) / 2 - (a - b) / 2) / ((a + b) / 2))
    by (apply Rdiv_lt_0_compat; lra).
  assert (E1 : ((a - b) / 2 + (a + b) / 2) / ((a + b) / 2)
               = (a - b) / 2 / ((a + b) / 2) + 1) by (field; lra).
  assert (E2 : ((a + b) / 2 - (a - b) / 2) / ((a + b) / 2)
               = 1 - (a - b) / 2 / ((a + b) / 2)) by (field; lra).
  lra.
Qed.

Lemma tanh_call_in_unit_interval u : Forall in_unit_interval (_TanhTransform._call u).
Proof.
  unfold _TanhTransform._call. apply Forall_fmap, Forall_forall.
  intros v _. apply tanh_in_unit_interval.
Qed.

(** The forward map on one and on three partial correlations. *)
Example call_order_two (a : R) :
  Vine._call [a] = Ok [[1; 0]; [a; sqrt (1 - a ^ 2)]].
Proof. reflexivity. Qed.

Example call_order_three (a b c : R) :
  Vine._call [a; b; c]
  = Ok [[1; 0; 0];
        [a; sqrt (1 - a ^ 2); 0];
        [b; c * sqrt (1 - b ^ 2); sqrt (1 - (b ^ 2 + (c * sqrt (1 - b ^ 2)) ^ 2))]].
Proof. reflexivity. Qed.

(** A length that is not triangular is refused. *)
Example call_two_inputs (a b : R) :
  Vine._call [a; b]
  = Raise (ValueError "Correlation matrix transformation requires d choose 2 inputs").
Proof. reflexivity. Qed.

(** What [_inverse] returns on a matrix of order two: the entry [x[1,0]],
    then the diagonal entry [x[1,1]] divided by [sqrt (1 - x[1,0]^2)]. *)
Lemma inverse_order_two (a b c d : R) :
  Vine._inverse [[a; b]; [c; d]] = Ok [c; d / sqrt (1 - c ^ 2)].
Proof. reflexivity. Qed.

(** ** C1: the round trip through the composed transform *)

(** C1 (fails on the code).  For every [D >= 2] and every vector [u] of
    length [D (D - 1) / 2], the forward map of the composed transform
    returns a matrix, and the inverse map applied to that matrix does not
    return [u]: lines 120-121 stand after the loop instead of inside it, so
    only the first column and one quotient for the last column are
    collected. *)
Theorem roundtrip_not_identity (D : nat) (u : tensor) :
  (2 <= D)%nat -> length u = (D * (D - 1) / 2)%nat ->
  exists x, CorrCholeskyTransform._call u = Ok x /\
            CorrCholeskyTransform._inverse x <> Ok u.
Proof.
  intros HD Hu. unfold CorrCholeskyTransform._call, CorrCholeskyTransform._inverse.
  destruct (call_final_rows D (_TanhTransform._call u)) as (x & Hx & Hshape & _).
  - apply tanh_call_in_unit_interval.
  - lia.
  - unfold _TanhTransform._call. rewrite length_fmap, Hu. apply triangular_double.
  - exists x. split; [done|].
    destruct (Vine._inverse x) as [z|e] eqn:Hz; simpl; [|discriminate].
    intros Heq. injection Heq as Heq.
    apply (inverse_wrong_length D x z HD Hshape Hz).
    rewrite <- Hu, <- Heq. unfold _TanhTransform._inverse. by rewrite length_fmap.
Qed.

Lemma roundtrip_not_identity_witness :
  (2 <= 2)%nat /\ length [0] = (2 * (2 - 1) / 2)%nat /\
  exists x, CorrCholeskyTransform._call [0] = Ok x /\
            CorrCholeskyTransform._inverse x <> Ok [0].
Proof.
  split; [lia|]. split; [reflexivity|].
  apply (roundtrip_not_identity 2 [0]); [lia | reflexivity].
Defined.

(** ** C3: the matrix of the forward map and the constraint *)

Lemma result_map_for_range {S T : Type} (h : S -> T)
    (f : nat -> S -> result S) (g : nat -> T -> result T) :
  (forall j s, (s' ← f j s; Ok (h s')) = g j (h s)) ->
  forall n lo s, (s' ← for_range lo n f s; Ok (h s')) = for_range lo n g (h s).
Proof.
  intros Hstep. induction n as [|n IH]; intros lo s; [reflexivity|].
  simpl. rewrite <- (Hstep lo s).
  destruct (f lo s) as [s1|e]; simpl; [apply IH | reflexivity].
Qed.

Lemma generic_call_body_real D z j (s : Generic.call_state (A := R)) :
  (s' ← Generic.call_body Generic.real_arithmetic D z j s; Ok (real_state s'))
  = Vine.call_body D z j (real_state s).
Proof.
  destruct s as [x i last cur].
  unfold Generic.call_body, Vine.call_body, real_state. simpl.
  change (Generic.next_last_squared_x Generic.real_arithmetic last cur)
    with (Vine.next_last_squared_x last cur).
  destruct (Vine.next_last_squared_x last cur) as [l|e]; simpl; [|reflexivity].
  change (Generic.getitem l 0) with (Torch.getitem l 0).
  destruct (Torch.getitem l 0) as [l0|e]; simpl; [|reflexivity].
  change (Generic.setitem2 x j j (sqrt (1 - l0)))
    with (Torch.setitem2 x j j (sqrt (1 - l0))).
  destruct (Torch.setitem2 x j j (sqrt (1 - l0))) as [x1|e]; simpl; [|reflexivity].
  match goal with
  | |- context [Generic.pointwise ?f ?a ?b] =>
      change (Generic.pointwise f a b)
        with (Torch.pointwise Rmult
                (Torch.slice i (i + (D - 1 - j)) z)
                (Torch.tsqrt (Torch.rsub1 (drop 1 l))))
  end.
  destruct (Torch.pointwise Rmult _ _) as [c|e]; simpl; [|reflexivity].
  change (Generic.setcol x1 (j + 1) j c) with (Torch.setcol x1 (j + 1) j c).
  destruct (Torch.setcol x1 (j + 1) j c) as [x2|e]; reflexivity.
Qed.

(** At the real arithmetic the generic forward map and the generic
    validator are the forward map and the validator of the model. *)
Lemma generic_call_real (z : tensor) :
  Generic._call Generic.real_arithmetic z = Vine._call z.
Proof.
  unfold Generic._call, Vine._call.
  destruct (Vine.dimension (length z)) as [D|e]; simpl; [|reflexivity].
  change (Generic.setitem2 (Generic.zeros Generic.real_arithmetic D D) 0 0 1)
    with (Torch.setitem2 (Torch.zeros D D) 0 0 1).
  destruct (Torch.setitem2 (Torch.zeros D D) 0 0 1) as [x1|e]; simpl; [|reflexivity].
  change (Generic.setcol x1 1 0 (Generic.slice 0 (D - 1) z))
    with (Torch.setcol x1 1 0 (Torch.slice 0 (D - 1) z)).
  destruct (Torch.setcol x1 1 0 (Torch.slice 0 (D - 1) z)) as [x2|e]; simpl;
    [|reflexivity].
  pose proof (result_map_for_range real_state
                (Generic.call_body Generic.real_arithmetic D z)
                (Vine.call_body D z) (generic_call_body_real D z) (D - 1) 1
                (Generic.CallState x2 (D - 1) None (Generic.slice 0 (D - 1) z))) as H.
  change (real_state (Generic.CallState x2 (D - 1) None (Generic.slice 0 (D - 1) z)))
    with (Vine.CallState x2 (D - 1) None (Torch.slice 0 (D - 1) z)) in H.
  rewrite <- H.
  destruct (for_range 1 (D - 1) _ _) as [s|e]; reflexivity.
Qed.

Lemma generic_check_real (x : matrix) :
  Generic.check Generic.real_arithmetic x = _CorrCholesky.check x.
Proof. reflexivity. Qed.

(** In exact arithmetic the diagonal of the forward map's matrix is even
    positive, and the validator accepts the matrix; C3 as stated holds in
    that arithmetic and not in binary32. *)
Lemma vine_call_exact_arithmetic (D : nat) (z : tensor) :
  (2 <= D)%nat -> length z = (D * (D - 1) / 2)%nat -> Forall in_unit_interval z ->
  exists x, Vine._call z = Ok x /\ positive_diagonal D x /\
    _CorrCholesky.check x = Ok true.
Proof.
  intros HD Hlen Hz.
  destruct (call_final_rows D z Hz) as (x & Hx & Hshape & Hfinal).
  - lia.
  - rewrite Hlen. apply triangular_double.
  - destruct (final_rows_valid D x Hshape Hfinal) as (Hlt & Hpd & Hun).
    destruct (check_reflect D x ltac:(lia) Hshape) as (b & Hb & Hiff).
    exists x. do 2 (split; [done|]).
    rewrite Hb. f_equal. by apply Hiff.
Qed.




(** ** C9: the validator *)

(** C9.  On a square matrix of order [D >= 1] the validator returns, and it
    returns true exactly when the matrix is lower triangular, every diagonal
    entry is positive and every row's sum of squares is within 1e-6 of one.
    In particular it returns false when some row's sum of squares is 1.1,
    and true on a lower-triangular matrix with positive diagonal whose rows
    have sum of squares within tolerance or equal to 1.0000001. *)
Theorem check_iff_invariants (D : nat) (x : matrix) :
  (1 <= D)%nat -> is_matrix D D x ->
  (exists b, _CorrCholesky.check x = Ok b /\
     (b = true <-> lower_triangular D x /\ positive_diagonal D x /\ unit_norm_row x))
  /\ ((exists i row, x !! i = Some row /\ sum_sq row = 1.1) ->
      _CorrCholesky.check x = Ok false)
  /\ (lower_triangular D x -> positive_diagonal D x ->
      (forall i row, x !! i = Some row ->
         Rabs (sum_sq row - 1) < 1e-6 \/ sum_sq row = 1.0000001) ->
      _CorrCholesky.check x = Ok true).
Proof.
  intros HD Hx. destruct (check_reflect D x HD Hx) as (b & Hb & Hiff).
  split; [by exists b|]. split.
  - intros (i & row & Hrow & Hsum). rewrite Hb. f_equal.
    destruct b; [|done]. exfalso.
    destruct Hiff as [Hiff _]. destruct (Hiff eq_refl) as (_ & _ & Hun).
    specialize (Hun i row Hrow). rewrite Hsum in Hun.
    rewrite Rabs_right in Hun by lra. lra.
  - intros Hlt Hpd Hrows. rewrite Hb. f_equal. apply Hiff.
    repeat split; try done.
    intros i row Hrow. destruct (Hrows i row Hrow) as [H|H]; [done|].
    rewrite H. rewrite Rabs_right by lra. lra.
Qed.

Lemma check_iff_invariants_witness :
  (1 <= 1)%nat /\ is_matrix 1 1 [[1]] /\
  (exists b, _CorrCholesky.check [[1]] = Ok b /\
     (b = true <->
      lower_triangular 1 [[1]] /\ positive_diagonal 1 [[1]] /\ unit_norm_row [[1]]))
  /\ ((exists i row, [[1]] !! i = Some row /\ sum_sq row = 1.1) ->
      _CorrCholesky.check [[1]] = Ok false)
  /\ (lower_triangular 1 [[1]] -> positive_diagonal 1 [[1]] ->
      (forall i row, [[1]] !! i = Some row ->
         Rabs (sum_sq row - 1) < 1e-6 \/ sum_sq row = 1.0000001) ->
      _CorrCholesky.check [[1]] = Ok true).
Proof.
  assert (Hm : is_matrix 1 1 [[1]]).
  { split; [reflexivity|]. intros [|i] row H; simpl in H.
    - injection H as <-. reflexivity.
    - discriminate. }
  split; [lia|]. split; [exact Hm|].
  apply (check_iff_invariants 1 [[1]]); [lia | exact Hm].
Defined.

(** ** C2: the log-Jacobian of the vine transform *)

Lemma sum_sq_masked (row : list R) : forall (i : nat) (f : nat -> R -> R),
  (forall j v, f j v = if decide (j < i)%nat then v else 0) ->
  sum_sq (imap f row) = sum_sq (take i row).
Proof.
  induction row as [|a row IH]; intros i f Hf.
  - by destruct i.
  - rewrite imap_cons. destruct i as [|i].
    + rewrite sum_sq_cons, Hf. rewrite decide_False by lia.
      rewrite (IH 0%nat).
      * rewrite !take_0, !sum_sq_nil. simpl pow. lra.
      * intros j v. unfold compose. rewrite Hf.
        rewrite !decide_False by lia. done.
    + simpl take. rewrite !sum_sq_cons, Hf. rewrite decide_True by lia.
      rewrite (IH i); [done|].
      intros j v. unfold compose. rewrite Hf.
      destruct (decide (S j < S i)%nat), (decide (j < i)%nat); try done; lia.
Qed.

Lemma tril_strict_row_sums (x : matrix) :
  Torch.row_sums (Torch.pow2 <$> Torch.tril (-1) x)
  = imap (fun i row => sum_sq (take i row)) x.
Proof.
  apply list_eq. intros i. unfold Torch.row_sums, Torch.tril.
  rewrite !list_lookup_fmap, !list_lookup_imap.
  destruct (x !! i) as [row|]; [|done]. simpl. f_equal.
  apply (sum_sq_masked row i). intros j v.
  destruct (decide (Z.of_nat j - Z.of_nat i <= -1)%Z), (decide (j < i)%nat);
    try done; lia.
Qed.

Lemma factor3_valid : _CorrCholesky.check factor3 = Ok true.
Proof.
  assert (Hm : is_matrix 3 3 factor3).
  { split; [reflexivity|]. intros [|[|[|i]]] row H; simpl in H;
      try discriminate; by injection H as <-. }
  destruct (check_reflect 3 factor3 ltac:(lia) Hm) as (b & Hb & Hiff).
  rewrite Hb. f_equal. apply Hiff. split; [|split].
  - intros [|[|[|i]]] [|[|[|j]]] Hij Hj; try lia; reflexivity.
  - intros [|[|[|i]]] Hi; try lia; unfold entry; simpl; lra.
  - intros [|[|[|i]]] row H; simpl in H; try discriminate; injection H as <-;
      unfold sum_sq, Torch.sum, Torch.pow2; simpl.
    + replace (1 * (1 * 1) + (0 * (0 * 1) + (0 * (0 * 1) + 0)) - 1) with 0 by lra.
      rewrite Rabs_R0. lra.
    + replace (0 * (0 * 1) + (1 * (1 * 1) + (0 * (0 * 1) + 0)) - 1) with 0 by lra.
      rewrite Rabs_R0. lra.
    + replace (1 / 3 * (1 / 3 * 1) + (2 / 3 * (2 / 3 * 1) + (2 / 3 * (2 / 3 * 1) + 0)) - 1)
        with 0 by lra.
      rewrite Rabs_R0. lra.
Qed.

(** C2 (fails on the code).  On the valid factor
    [[1, 0, 0], [0, 1, 0], [1/3, 2/3, 2/3]] line 126 returns [ln (4/9) / 2]:
    it adds the squares along each row before it takes the logarithm.  The
    sum of [ln (1 - t^2) / 2] over the strictly-lower-triangular entries [t]
    is [(ln (8/9) + ln (5/9)) / 2], a different number. *)
Theorem log_abs_det_jacobian_factor3 (z : tensor) :
  _CorrCholesky.check factor3 = Ok true /\
  Vine.log_abs_det_jacobian factor3 z = ln (4 / 9) * 0.5 /\
  log_abs_det_by_entry factor3 = 0.5 * (ln (8 / 9) + ln (5 / 9)) /\
  Vine.log_abs_det_jacobian factor3 z <> log_abs_det_by_entry factor3.
Proof.
  assert (Hcode : Vine.log_abs_det_jacobian factor3 z = ln (4 / 9) * 0.5).
  { unfold Vine.log_abs_det_jacobian. rewrite tril_strict_row_sums.
    unfold factor3, sum_sq, Torch.sum, Torch.pow2, Torch.tlog, Torch.rsub1. simpl.
    replace (1 - 0) with 1 by lra.
    replace (1 - (0 * (0 * 1) + 0)) with 1 by lra.
    replace (1 - (1 / 3 * (1 / 3 * 1) + (2 / 3 * (2 / 3 * 1) + 0))) with (4 / 9) by lra.
    rewrite ln_1. lra. }
  assert (Hentry : log_abs_det_by_entry factor3 = 0.5 * (ln (8 / 9) + ln (5 / 9))).
  { unfold log_abs_det_by_entry, strict_lower_entries, factor3, Torch.sum. simpl.
    replace (1 - 0 * (0 * 1)) with 1 by lra.
    replace (1 - 1 / 3 * (1 / 3 * 1)) with (8 / 9) by lra.
    replace (1 - 2 / 3 * (2 / 3 * 1)) with (5 / 9) by lra.
    rewrite ln_1. lra. }
  split; [apply factor3_valid|]. split; [done|]. split; [done|].
  rewrite Hcode, Hentry. intros H.
  assert (Hln : ln (4 / 9) = ln (8 / 9 * (5 / 9))).
  { rewrite ln_mult by lra. lra. }
  apply ln_inv in Hln; lra.
Qed.

(** What line 126 returns is not the logarithm of the Jacobian determinant
    of the forward map.  For [D = 2] the only free entry of the matrix is
    [x[1,0]], equal to the partial correlation itself, so the derivative is
    one and its logarithm zero; line 126 returns [ln (1 - a^2) / 2], which
    is negative for [a <> 0]. *)
Lemma log_abs_det_jacobian_order_two (a : R) :
  in_unit_interval a -> a <> 0 ->
  derivable_pt_lim order_two_coordinate a 1 /\
  exists x, Vine._call [a] = Ok x /\
    Vine.log_abs_det_jacobian x [a] = ln (1 - a ^ 2) * 0.5 /\
    Vine.log_abs_det_jacobian x [a] < ln 1.
Proof.
  intros [Ha1 Ha2] Hne. split; [apply (derivable_pt_lim_id a)|].
  exists [[1; 0]; [a; sqrt (1 - a ^ 2)]]. split; [reflexivity|].
  assert (Hcode : Vine.log_abs_det_jacobian [[1; 0]; [a; sqrt (1 - a ^ 2)]] [a]
                  = ln (1 - a ^ 2) * 0.5).
  { unfold Vine.log_abs_det_jacobian. rewrite tril_strict_row_sums.
    unfold sum_sq, Torch.sum, Torch.pow2, Torch.tlog, Torch.rsub1. simpl.
    replace (1 - 0) with 1 by lra.
    replace (1 - (a * (a * 1) + 0)) with (1 - a * (a * 1)) by lra.
    rewrite ln_1. lra. }
  split; [done|]. rewrite Hcode, ln_1.
  assert (Hsq : 0 < a ^ 2).
  { destruct (Rtotal_order a 0) as [?|[?|?]]; [nra | lra | nra]. }
  assert (Hlt : 0 < 1 - a ^ 2) by nra.
  pose proof (ln_increasing (1 - a ^ 2) 1 Hlt ltac:(lra)) as Hln.
  rewrite ln_1 in Hln. lra.
Qed.

(** ** C7: the log-Jacobian of the tanh transform *)

Lemma cosh_pos v : 0 < cosh v.
Proof.
  unfold cosh. pose proof (exp_pos v). pose proof (exp_pos (- v)). lra.
Qed.

Lemma cosh2_minus_sinh2 v : cosh v * cosh v - sinh v * sinh v = 1.
Proof.
  unfold cosh, sinh.
  assert (H : exp v * exp (- v) = 1).
  { rewrite exp_Ropp. apply Rinv_r. apply exp_neq_0. }
  set (a := exp v) in *. set (b := exp (- v)) in *.
  replace ((a + b) / 2 * ((a + b) / 2) - (a - b) / 2 * ((a - b) / 2)) with (a * b) by lra.
  done.
Qed.

Lemma derivable_pt_lim_tanh v : derivable_pt_lim tanh v (/ cosh v ^ 2).
Proof.
  pose proof (derivable_pt_lim_div sinh cosh v (cosh v) (sinh v)
                (derivable_pt_lim_sinh v) (derivable_pt_lim_cosh v)) as H.
  assert (Hc : cosh v <> 0) by (pose proof (cosh_pos v); lra).
  specialize (H Hc).
  replace (/ cosh v ^ 2) with ((cosh v * cosh v - sinh v * sinh v) / Rsqr (cosh v)).
  - exact H.
  - rewrite cosh2_minus_sinh2, Rsqr_pow2. lra.
Qed.

Lemma cosh_increasing a b : 0 <= a -> a < b -> cosh a < cosh b.
Proof.
  intros Ha Hab. unfold cosh.
  assert (Hp : 1 <= exp a).
  { destruct Ha as [Ha|<-]; [|rewrite exp_0; lra].
    rewrite <- exp_0. left. by apply exp_increasing. }
  assert (Hq : exp a < exp b) by (by apply exp_increasing).
  rewrite !exp_Ropp.
  set (p := exp a) in *. set (q := exp b) in *.
  assert (Hip : 0 < / p) by (apply Rinv_0_lt_compat; lra).
  assert (Hiq : 0 < / q) by (apply Rinv_0_lt_compat; lra).
  assert (Ep : p * / p = 1) by (apply Rinv_r; lra).
  assert (Eq : q * / q = 1) by (apply Rinv_r; lra).
  assert (Hip1 : / p <= 1) by nra.
  assert (Hiq1 : / q < 1) by nra.
  assert (Hd : / p - / q = (q - p) * (/ p * / q)) by nra.
  assert (Hprod : / p * / q < 1) by nra.
  nra.
Qed.

(** The logarithm of the derivative of [tanh] at [v] is [-2 ln (cosh v)]:
    [cosh] of the input. *)
Lemma ln_tanh_derivative v : ln (/ cosh v ^ 2) = -2 * ln (cosh v).
Proof.
  pose proof (cosh_pos v) as Hc.
  rewrite ln_Rinv by (apply pow_lt; done).
  rewrite ln_pow by done. simpl INR. lra.
Qed.

Lemma tanh_1_bounds : 0 < tanh 1 < 1.
Proof.
  split; [|apply tanh_in_unit_interval].
  unfold tanh. apply Rdiv_lt_0_compat; [|apply cosh_pos].
  rewrite <- sinh_0. apply sinh_lt. lra.
Qed.

(** C7 (fails on the code).  At [x = 1] the forward map [tanh] has
    derivative [1 / cosh(1)^2], whose logarithm is [-2 ln (cosh 1)]; line 58
    evaluates [cosh] at the output [y = tanh 1] and returns
    [-2 ln (cosh (tanh 1))], a different number. *)
Theorem tanh_log_jacobian_not_log_derivative :
  derivable_pt_lim tanh_coordinate 1 (/ cosh 1 ^ 2) /\
  ln (/ cosh 1 ^ 2) = -2 * ln (cosh 1) /\
  tanh_log_jacobian_coordinate 1 = -2 * ln (cosh (tanh 1)) /\
  tanh_log_jacobian_coordinate 1 <> ln (/ cosh 1 ^ 2).
Proof.
  pose proof (ln_tanh_derivative 1) as Hln.
  split; [|split; [done|split; [done|]]].
  - apply (derivable_pt_lim_tanh 1).
  - rewrite Hln. change (tanh_log_jacobian_coordinate 1) with (-2 * ln (cosh (tanh 1))).
    destruct tanh_1_bounds as [H0 H1].
    pose proof (cosh_increasing (tanh 1) 1 ltac:(lra) H1) as Hlt.
    pose proof (ln_increasing _ _ (cosh_pos (tanh 1)) Hlt). lra.
Qed.

(** ** C8: construction with a non-positive concentration *)

(** C8 (fails on the code).  With [eta = 0] the guard of line 170 fires and
    line 171 evaluates the name [ValueException], which nothing binds: the
    constructor leaves with [NameError], not with a parameter error that the
    code raises on purpose. *)
Theorem init_nonpositive_eta_name_error :
  LKJCholeskyFactor.__init__ 3 0 = Raise (NameError "ValueException").
Proof.
  unfold LKJCholeskyFactor.__init__. rewrite decide_True by lra. reflexivity.
Qed.

(** The same for every dimension and every [eta <= 0]. *)
Lemma init_nonpositive_eta (d : nat) (eta : R) :
  eta <= 0 -> LKJCholeskyFactor.__init__ d eta = Raise (NameError "ValueException").
Proof.
  intros H. unfold LKJCholeskyFactor.__init__. rewrite decide_True by done. reflexivity.
Qed.

(** For a positive [eta] and [d >= 2] the constructor stops at line 175. *)
Lemma init_expand_raises (d : nat) (eta : R) :
  0 < eta -> (2 <= d)%nat ->
  exists msg, LKJCholeskyFactor.__init__ d eta = Raise (RuntimeError msg).
Proof.
  intros Heta Hd. unfold LKJCholeskyFactor.__init__. rewrite decide_False by lra.
  cbv zeta. unfold LKJCholeskyFactor.new_expand.
  rewrite decide_False.
  - eexists. reflexivity.
  - pose proof (triangular_double d). nia.
Qed.

(** ** C6: the concentration vector *)

Lemma fill_concentrations_three (a b c : R) :
  LKJCholeskyFactor.fill_concentrations 3 (1 + 0.5 * (INR 3 - 1.0)) [a; b; c]
  = Ok [1.5; 1.5; 1.0].
Proof.
  unfold LKJCholeskyFactor.fill_concentrations. simpl.
  f_equal. repeat f_equal; lra.
Qed.

(** C6 (as amended).  For [D = 3] and [eta = 1], the recursion of lines
    176-181, started at [alpha = eta + 0.5 (D - 1)] on a vector of three
    entries, returns [1.5; 1.5; 1.0]: the two entries of the first group,
    then the entry of the second. *)
Theorem fill_concentrations_d3_eta1 (concentrations : tensor) :
  length concentrations = 3%nat ->
  LKJCholeskyFactor.fill_concentrations 3 (1 + 0.5 * (INR 3 - 1.0)) concentrations
  = Ok [1.5; 1.5; 1.0].
Proof.
  intros Hlen. destruct concentrations as [|a [|b [|c [|? ?]]]]; simpl in Hlen; try lia.
  apply fill_concentrations_three.
Qed.

Lemma fill_concentrations_d3_eta1_witness :
  length [0; 0; 0] = 3%nat /\
  LKJCholeskyFactor.fill_concentrations 3 (1 + 0.5 * (INR 3 - 1.0)) [0; 0; 0]
  = Ok [1.5; 1.5; 1.0].
Proof.
  split; [reflexivity|]. apply (fill_concentrations_d3_eta1 [0; 0; 0]). reflexivity.
Defined.

(** C6 as stated fails: neither the recursion nor the constructor produces
    [1.5; 1.0; 1.5]. *)
Lemma concentrations_d3_eta1_not_as_claimed :
  LKJCholeskyFactor.fill_concentrations 3 (1 + 0.5 * (INR 3 - 1.0)) [0; 0; 0]
    <> Ok [1.5; 1.0; 1.5]
  /\ ~ (exists self, LKJCholeskyFactor.__init__ 3 1 = Ok self /\
          LKJCholeskyFactor._generating_distribution self = [1.5; 1.0; 1.5]).
Proof.
  split.
  - rewrite fill_concentrations_three.
    intros H. injection H as H. lra.
  - intros (self & Hself & _).
    destruct (init_expand_raises 3 1 ltac:(lra) ltac:(lia)) as (msg & Hmsg).
    rewrite Hmsg in Hself. discriminate.
Qed.

(** ** C5: density evaluation *)

(** C5 (fails on the code).  Line 208 calls [lkj_constant] as a free name;
    the module binds no such name (the function is a method), so every call
    of [log_prob] leaves with [NameError] and no log-density is returned. *)
Theorem log_prob_name_error (lgamma : R -> R)
    (self : LKJCholeskyFactor.instance) (x : matrix) :
  LKJCholeskyFactor.log_prob lgamma self x = Raise (NameError "lkj_constant").
Proof. reflexivity. Qed.

(** ** C4: the normalizing constant *)

Lemma linspace_integers (n : nat) :
  (1 <= n)%nat -> Torch.linspace 1 (INR n) n = INR <$> seq 1 n.
Proof.
  intros Hn. unfold Torch.linspace.
  destruct n as [|[|n]]; [lia | simpl; f_equal; lra |].
  set (m := S (S n)).
  rewrite <- fmap_S_seq, <- list_fmap_compose.
  apply list_fmap_ext. intros i k Hk. unfold compose.
  assert (Hm : INR (m - 1) = INR m - 1).
  { rewrite minus_INR by (unfold m; lia). simpl. lra. }
  assert (Hne : INR m - 1 <> 0).
  { unfold m. rewrite !S_INR. pose proof (pos_INR n). lra. }
  rewrite Hm, S_INR. field. done.
Qed.

Lemma sum_zip_fmap (f g : nat -> R) (lo n : nat) :
  Torch.sum (zip_with Rplus (f <$> seq lo n) (g <$> seq lo n))
  = sum_from lo n (fun k => f k + g k).
Proof.
  revert lo. induction n as [|n IH]; intros lo; [done|].
  simpl. unfold Torch.sum in IH. by rewrite IH.
Qed.

Lemma sum_from_ext (f g : nat -> R) (lo n : nat) :
  (forall k, f k = g k) -> sum_from lo n f = sum_from lo n g.
Proof.
  intros H. revert lo. induction n as [|n IH]; intros lo; [done|].
  simpl. by rewrite H, IH.
Qed.

(** C4.  For every [eta > 0] and [K >= 2], on an instance whose cache is
    empty, [lkj_constant] returns
    [(K-1) lgamma(eta + (K-1)/2)
       - sum_{k=1}^{K-1} (k (ln(pi)/2) + lgamma(eta + (K-1-k)/2))]. *)
Theorem lkj_constant_formula (lgamma : R -> R)
    (self : LKJCholeskyFactor.instance) (eta : R) (K : nat) :
  0 < eta -> (2 <= K)%nat -> LKJCholeskyFactor._lkj_constant self = None ->
  exists self',
    LKJCholeskyFactor.lkj_constant lgamma self eta K
    = Ok (lkj_normalizer lgamma eta K, self').
Proof.
  intros Heta HK Hnone. unfold LKJCholeskyFactor.lkj_constant. rewrite Hnone.
  rewrite decide_False by lia. cbv zeta.
  rewrite (linspace_integers (K - 1)) by lia.
  rewrite pointwise_same_length by (by rewrite !length_fmap).
  rewrite bind_Ok. eexists. f_equal. f_equal.
  unfold lkj_normalizer.
  rewrite <- !list_fmap_compose.
  rewrite sum_zip_fmap.
  assert (HK1 : INR (K - 1) = INR K - 1).
  { rewrite minus_INR by lia. simpl. lra. }
  rewrite HK1.
  replace (eta + 0.5 * (INR K - 1)) with (eta + (INR K - 1) / 2) by lra.
  rewrite (Rmult_comm (lgamma _)). f_equal.
  apply sum_from_ext. intros k. unfold compose.
  f_equal; [lra|]. f_equal. lra.
Qed.

Lemma lkj_constant_formula_witness :
  0 < 1 /\ (2 <= 2)%nat /\
  LKJCholeskyFactor._lkj_constant (LKJCholeskyFactor.Instance [] 1 2 None) = None /\
  exists self',
    LKJCholeskyFactor.lkj_constant ln (LKJCholeskyFactor.Instance [] 1 2 None) 1 2
    = Ok (lkj_normalizer ln 1 2, self').
Proof.
  split; [lra|]. split; [lia|]. split; [reflexivity|].
  apply (lkj_constant_formula ln (LKJCholeskyFactor.Instance [] 1 2 None) 1 2);
    [lra | lia | reflexivity].
Defined.

(** ** C10: the cache of the normalizing constant *)

Lemma lkj_constant_sets_cache lgamma self eta K c self1 :
  LKJCholeskyFactor.lkj_constant lgamma self eta K = Ok (c, self1) ->
  LKJCholeskyFactor._lkj_constant self1 = Some c.
Proof.
  unfold LKJCholeskyFactor.lkj_constant.
  destruct (LKJCholeskyFactor._lkj_constant self) as [c0|] eqn:Hcache.
  - intros H. injection H as <- <-. done.
  - destruct (decide (K = 0)%nat); [discriminate|]. cbv zeta.
    destruct (Torch.pointwise _ _ _) as [t|e]; simpl; [|discriminate].
    intros H. injection H as <- <-. done.
Qed.

Lemma lkj_constant_cached lgamma self eta K c :
  LKJCholeskyFactor._lkj_constant self = Some c ->
  LKJCholeskyFactor.lkj_constant lgamma self eta K = Ok (c, self).
Proof. intros H. unfold LKJCholeskyFactor.lkj_constant. by rewrite H. Qed.

(** C10.  Once a call of [lkj_constant] on an instance has returned [c], the
    cache holds [c], and every later call on that instance, whatever its
    arguments, returns [c] and leaves the instance as it is. *)
Theorem lkj_constant_memoized (lgamma : R -> R)
    (self self1 : LKJCholeskyFactor.instance) (eta : R) (K : nat) (c : R)
    (args : list (R * nat)) :
  LKJCholeskyFactor.lkj_constant lgamma self eta K = Ok (c, self1) ->
  LKJCholeskyFactor._lkj_constant self1 = Some c /\
  lkj_constant_calls lgamma self1 args = Ok (replicate (length args) c, self1).
Proof.
  intros H. apply lkj_constant_sets_cache in H. split; [done|].
  induction args as [|[eta' K'] args IH]; [done|].
  simpl. rewrite (lkj_constant_cached lgamma self1 eta' K' c H), bind_Ok.
  simpl. rewrite IH, bind_Ok. done.
Qed.

Lemma lkj_constant_memoized_witness :
  exists c self1,
    LKJCholeskyFactor.lkj_constant ln (LKJCholeskyFactor.Instance [] 1 2 None) 1 2
    = Ok (c, self1) /\
    LKJCholeskyFactor._lkj_constant self1 = Some c /\
    lkj_constant_calls ln self1 [(5, 7%nat); (0.5, 3%nat)] = Ok ([c; c], self1).
Proof.
  eexists. eexists.
  assert (H : forall r,
    LKJCholeskyFactor.lkj_constant ln (LKJCholeskyFactor.Instance [] 1 2 None) 1 2 = Ok r ->
    LKJCholeskyFactor.lkj_constant ln (LKJCholeskyFactor.Instance [] 1 2 None) 1 2
    = Ok (r.1, r.2)).
  { intros [c s] Hr. exact Hr. }
  split.
  - apply H. reflexivity.
  - apply (lkj_constant_memoized ln (LKJCholeskyFactor.Instance [] 1 2 None) _ 1 2 _
             [(5, 7%nat); (0.5, 3%nat)]).
    apply H. reflexivity.
Defined.

(** * Further properties of the code *)

(** ** The tanh transform (lines 42-58) *)

Lemma tanh_atanh y : in_unit_interval y -> tanh (ln ((1 + y) / (1 - y)) / 2) = y.
Proof.
  intros [Hy1 Hy2].
  assert (Hw : 0 < (1 + y) / (1 - y)) by (apply Rdiv_lt_0_compat; lra).
  set (w := (1 + y) / (1 - y)) in *.
  unfold tanh, sinh, cosh. rewrite exp_Ropp.
  pose proof (exp_pos (ln w / 2)) as Hp.
  assert (Hpp : exp (ln w / 2) * exp (ln w / 2) = w).
  { rewrite <- exp_plus. replace (ln w / 2 + ln w / 2) with (ln w) by lra.
    by apply exp_ln. }
  set (p := exp (ln w / 2)) in *.
  assert (Hq : 0 < / p) by (by apply Rinv_0_lt_compat).
  assert (Epq : p * / p = 1) by (apply Rinv_r; lra).
  assert (Hwy : w * (1 - y) = 1 + y) by (unfold w; field; lra).
  set (q := / p) in *.
  assert (Hmain : p - q = y * (p + q)).
  { apply (Rmult_eq_reg_l p); [|lra].
    replace (p * (p - q)) with (p * p - p * q) by ring.
    replace (p * (y * (p + q))) with (y * (p * p) + y * (p * q)) by ring.
    rewrite Hpp, Epq. lra. }
  replace ((p - q) / 2 / ((p + q) / 2)) with ((p - q) / (p + q)) by (field; lra).
  rewrite Hmain. field. lra.
Qed.

(** X2.  The forward map of the tanh transform undoes the inverse on every
    vector with coordinates in (-1, 1). *)
Theorem tanh_call_inverse (y : tensor) :
  Forall in_unit_interval y ->
  _TanhTransform._call (_TanhTransform._inverse y) = y.
Proof.
  intros Hy. unfold _TanhTransform._inverse, _TanhTransform._call.
  rewrite <- list_fmap_compose. rewrite <- (list_fmap_id y) at 2.
  apply list_fmap_ext. intros i v Hv. unfold compose. apply tanh_atanh.
  by eapply Forall_lookup_1.
Qed.

Lemma tanh_call_inverse_witness :
  Forall in_unit_interval [0.5; -0.25] /\
  _TanhTransform._call (_TanhTransform._inverse [0.5; -0.25]) = [0.5; -0.25].
Proof.
  assert (H : Forall in_unit_interval [0.5; -0.25]).
  { repeat constructor; lra. }
  split; [exact H|]. apply (tanh_call_inverse [0.5; -0.25]). exact H.
Defined.

(** X3.  The forward map of the tanh transform keeps the length and sends
    every coordinate into the closed interval [-1, 1].  (In exact arithmetic
    the bounds are not reached; in binary32 they are.) *)
Theorem tanh_call_range (x : tensor) :
  length (_TanhTransform._call x) = length x /\
  Forall (fun v => -1 <= v <= 1) (_TanhTransform._call x).
Proof.
  split.
  - unfold _TanhTransform._call. by rewrite length_fmap.
  - apply Forall_forall. intros v Hv. unfold _TanhTransform._call in Hv.
    apply list_elem_of_fmap in Hv as (u & -> & _).
    destruct (tanh_in_unit_interval u). lra.
Qed.

(** ** The composed transform (lines 129-135) *)



(** ** The vine transform: inputs it refuses (lines 80-82) *)

(** X5.  A vector whose length is not of the form [D (D - 1) / 2] is refused
    with the [ValueError] of line 82. *)
Theorem call_refuses_non_triangular (z : tensor) :
  (forall D, (length z * 2)%nat <> (D * (D - 1))%nat) ->
  Vine._call z
  = Raise (ValueError "Correlation matrix transformation requires d choose 2 inputs").
Proof.
  intros Hz. unfold Vine._call, Vine.dimension.
  destruct (decide _) as [Hsq|Hsq]; [|reflexivity].
  exfalso. set (r := Nat.sqrt (1 + 8 * length z)) in *.
  destruct (Nat.Even_or_Odd r) as [[m Hm]|[m Hm]].
  - rewrite Hm in Hsq. lia.
  - apply (Hz (m + 1)%nat). rewrite Hm in Hsq. nia.
Qed.

Lemma call_refuses_non_triangular_witness :
  (forall D, (length [0; 0] * 2)%nat <> (D * (D - 1))%nat) /\
  Vine._call [0; 0]
  = Raise (ValueError "Correlation matrix transformation requires d choose 2 inputs").
Proof.
  assert (H : forall D, (length [0; 0] * 2)%nat <> (D * (D - 1))%nat).
  { intros [|[|[|D]]]; simpl; lia. }
  split; [exact H|]. apply (call_refuses_non_triangular [0; 0]). exact H.
Defined.

(** ** The vine transform: the matrix the forward map builds (lines 85-103) *)

Lemma setitem2_entry x i j v x' r c :
  Torch.setitem2 x i j v = Ok x' -> r <> i \/ c <> j -> entry x' r c = entry x r c.
Proof.
  unfold Torch.setitem2. destruct (x !! i) as [row|] eqn:Hi; [|discriminate].
  destruct (decide (j < length row)%nat); [|discriminate].
  intros H Hor. injection H as <-. unfold entry.
  destruct (decide (r = i)) as [->|Hne].
  - destruct Hor as [?|Hc]; [done|].
    rewrite list_lookup_insert_eq by (by eapply lookup_lt_Some).
    rewrite Hi. simpl. by rewrite list_lookup_insert_ne.
  - by rewrite list_lookup_insert_ne.
Qed.

Lemma setcol_entry_other_column x lo j vs x' r c :
  Torch.setcol x lo j vs = Ok x' -> c <> j -> entry x' r c = entry x r c.
Proof.
  unfold Torch.setcol. destruct (decide (j < Torch.ncols x)%nat); [|discriminate].
  destruct (Torch.expand_to _ vs) as [vs'|e]; simpl; [|discriminate].
  intros H Hc. injection H as <-. unfold entry.
  rewrite list_lookup_imap. destruct (x !! r) as [row|]; [|done]. simpl.
  destruct (decide (lo <= r)%nat); [|done].
  destruct (vs' !! (r - lo)%nat); [|done].
  by rewrite list_lookup_insert_ne.
Qed.

Lemma call_body_other_columns D z j s s' r c :
  Vine.call_body D z j s = Ok s' -> c <> j ->
  entry (Vine.st_x s') r c = entry (Vine.st_x s) r c.
Proof.
  unfold Vine.call_body. intros H Hc.
  destruct (Vine.next_last_squared_x _ _) as [l|e]; simpl in H; [|discriminate].
  destruct (Torch.getitem l 0) as [l0|e]; simpl in H; [|discriminate].
  destruct (Torch.setitem2 _ j j _) as [x1|e] eqn:Hx1; simpl in H; [|discriminate].
  destruct (Torch.pointwise Rmult _ _) as [cur|e]; simpl in H; [|discriminate].
  destruct (Torch.setcol x1 _ j cur) as [x2|e] eqn:Hx2; simpl in H; [|discriminate].
  injection H as <-. simpl.
  rewrite (setcol_entry_other_column _ _ _ _ _ r c Hx2 Hc).
  apply (setitem2_entry _ _ _ _ _ r c Hx1). by right.
Qed.

Lemma call_loop_earlier_columns D z n : forall j s s' r c,
  for_range j n (Vine.call_body D z) s = Ok s' -> (c < j)%nat ->
  entry (Vine.st_x s') r c = entry (Vine.st_x s) r c.
Proof.
  induction n as [|n IH]; intros j s s' r c H Hc; simpl in H.
  - by injection H as <-.
  - destruct (Vine.call_body D z j s) as [s1|e] eqn:Hs1; simpl in H; [|discriminate].
    rewrite (IH (S j) s1 s' r c H ltac:(lia)).
    apply (call_body_other_columns D z j s s1 r c Hs1). lia.
Qed.

Lemma call_column_zero (D : nat) (z : tensor) (x : matrix) :
  (1 <= D)%nat -> (length z * 2 = D * (D - 1))%nat -> Vine._call z = Ok x ->
  entry x 0 0 = 1 /\
  forall r v, (r < D - 1)%nat -> z !! r = Some v -> entry x (S r) 0 = v.
Proof.
  intros HD HL Hcall.
  unfold Vine._call in Hcall.
  rewrite (dimension_triangular D _ HD HL), bind_Ok in Hcall. cbv zeta in Hcall.
  assert (Hrow0 : Torch.zeros D D !! 0%nat = Some (replicate D 0)).
  { unfold Torch.zeros. by apply lookup_replicate_2. }
  destruct (setitem2_spec D D _ 0 0 1 _ (is_matrix_zeros D D) Hrow0 ltac:(lia))
    as (x1 & Hx1 & Hshape1 & Hx10 & Hx1r).
  rewrite Hx1, bind_Ok in Hcall.
  set (cur := Torch.slice 0 (D - 1) z) in *.
  assert (Hcur : length cur = (D - 1)%nat).
  { unfold cur, Torch.slice. rewrite length_take, length_drop. nia. }
  destruct (setcol_spec D D x1 1 0 cur Hshape1) as (x2 & Hx2 & Hshape2 & Hx2lo & Hx2hi);
    [lia | lia | done |].
  rewrite Hx2, bind_Ok in Hcall.
  destruct (for_range 1 (D - 1) _ _) as [s|e] eqn:Hs; simpl in Hcall; [|discriminate].
  injection Hcall as <-.
  split.
  - rewrite (call_loop_earlier_columns D z _ _ _ _ 0 0 Hs) by lia. simpl.
    unfold entry. rewrite Hx2lo, Hx10 by lia. simpl.
    rewrite list_lookup_insert_eq by (rewrite length_replicate; lia). done.
  - intros r v Hr Hv.
    rewrite (call_loop_earlier_columns D z _ _ _ _ (S r) 0 Hs) by lia. simpl.
    assert (Hx1row : x1 !! S r = Some (replicate D 0)).
    { rewrite Hx1r by lia. unfold Torch.zeros. apply lookup_replicate_2. lia. }
    assert (Hcv : cur !! (S r - 1)%nat = Some v).
    { unfold cur, Torch.slice. rewrite lookup_take, decide_True by lia.
      rewrite drop_0. by replace (S r - 1)%nat with r by lia. }
    unfold entry. rewrite (Hx2hi (S r) _ v ltac:(lia) Hx1row Hcv). simpl.
    rewrite list_lookup_insert_eq by (rewrite length_replicate; lia). done.
Qed.

(** X6.  Whenever the forward map returns, the first column of the result
    is [1] followed by the first [D - 1] coordinates of the input, as lines
    87-88 write them: the loop does not touch that column again. *)
Theorem call_first_column (D : nat) (z : tensor) (x : matrix) :
  (1 <= D)%nat -> length z = (D * (D - 1) / 2)%nat -> Vine._call z = Ok x ->
  entry x 0 0 = 1 /\
  forall r v, (r < D - 1)%nat -> z !! r = Some v -> entry x (S r) 0 = v.
Proof.
  intros HD Hlen Hcall. apply (call_column_zero D z x HD); [|done].
  rewrite Hlen. apply triangular_double.
Qed.

Lemma call_first_column_witness :
  (1 <= 2)%nat /\ length [0.3] = (2 * (2 - 1) / 2)%nat /\
  Vine._call [0.3] = Ok [[1; 0]; [0.3; sqrt (1 - 0.3 ^ 2)]] /\
  entry [[1; 0]; [0.3; sqrt (1 - 0.3 ^ 2)]] 0 0 = 1 /\
  forall r v, (r < 2 - 1)%nat -> [0.3] !! r = Some v ->
    entry [[1; 0]; [0.3; sqrt (1 - 0.3 ^ 2)]] (S r) 0 = v.
Proof.
  split; [lia|]. split; [reflexivity|]. split; [reflexivity|].
  apply (call_first_column 2 [0.3]); [lia | reflexivity | reflexivity].
Defined.

Lemma sum_sq_app (a b : list R) : sum_sq (a ++ b) = sum_sq a + sum_sq b.
Proof.
  induction a as [|v a IH]; simpl.
  - rewrite sum_sq_nil. lra.
  - rewrite !sum_sq_cons, IH. lra.
Qed.

Lemma sum_sq_zero (l : list R) : zero_from 0 l -> sum_sq l = 0.
Proof.
  induction l as [|v l IH]; intros Hz; [done|].
  rewrite sum_sq_cons, IH.
  - rewrite (Hz 0%nat v); [simpl; lra | lia | done].
  - intros c w _ Hw. apply (Hz (S c) w); [lia | done].
Qed.


(** In a finished row the squares left of the diagonal and the square of
    the diagonal entry add up to one. *)
Lemma final_row_prefix r row v :
  final_row r row -> row !! r = Some v -> sum_sq (take r row) = 1 - v ^ 2.
Proof.
  intros (Hz & _ & Hsum) Hv.
  rewrite <- (take_drop_middle row r v Hv) in Hsum.
  rewrite sum_sq_app, sum_sq_cons in Hsum.
  rewrite (sum_sq_zero (drop (S r) row)) in Hsum; [lra|].
  intros c w _ Hw. rewrite lookup_drop in Hw. apply (Hz (S r + c)%nat w); [lia | done].
Qed.



(** ** The vine transform: line 126 on the matrices the forward map returns *)

Lemma sum_double_ln (l : list R) :
  Torch.sum ((fun v => 2 * ln v) <$> l) * 0.5 = Torch.sum (Torch.tlog l).
Proof.
  induction l as [|v l IH]; [unfold Torch.sum; simpl; lra|].
  change ((2 * ln v + Torch.sum ((fun v => 2 * ln v) <$> l)) * 0.5
          = ln v + Torch.sum (Torch.tlog l)).
  rewrite <- IH. lra.
Qed.

Lemma log_abs_det_final_rows D (x : matrix) (z : tensor) :
  is_matrix D D x -> (forall r row, x !! r = Some row -> final_row r row) ->
  Vine.log_abs_det_jacobian x z = Torch.sum (Torch.tlog (Torch.diagonal x)).
Proof.
  intros Hshape Hfinal. unfold Vine.log_abs_det_jacobian.
  rewrite tril_strict_row_sums, (diagonal_square D x Hshape).
  rewrite <- (sum_double_ln ((fun i => entry x i i) <$> seq 0 D)).
  f_equal. f_equal. apply list_eq. intros i.
  unfold Torch.tlog, Torch.rsub1.
  rewrite !list_lookup_fmap, list_lookup_imap.
  destruct (decide (i < D)%nat) as [Hi|Hi].
  - destruct (is_matrix_entry D D x i i Hshape Hi Hi) as (row & Hrow & _ & Hv).
    rewrite Hrow, lookup_seq_lt by done. simpl. f_equal.
    destruct (Hfinal i row Hrow) as (_ & (v & Hv' & Hpos) & _).
    rewrite (final_row_prefix i row v (Hfinal i row Hrow) Hv').
    rewrite Hv in Hv'. injection Hv' as ->.
    replace (1 - (1 - v ^ 2)) with (v * v) by ring.
    rewrite ln_mult by done. lra.
  - destruct Hshape as [Hn _].
    rewrite lookup_ge_None_2 by lia. rewrite lookup_ge_None_2; [done|].
    rewrite length_seq. lia.
Qed.

(** X8.  On the matrix the forward map returns, the value of line 126 is the
    sum of the logarithms of the diagonal entries: each row's term
    [ln (1 - s) / 2] is [ln] of that row's diagonal entry. *)
Theorem log_abs_det_jacobian_on_call (D : nat) (z : tensor) :
  (1 <= D)%nat -> length z = (D * (D - 1) / 2)%nat -> Forall in_unit_interval z ->
  exists x, Vine._call z = Ok x /\
    Vine.log_abs_det_jacobian x z = Torch.sum (Torch.tlog (Torch.diagonal x)).
Proof.
  intros HD Hlen Hz.
  destruct (call_final_rows D z Hz HD) as (x & Hx & Hshape & Hfinal).
  { rewrite Hlen. apply triangular_double. }
  exists x. split; [done|]. by apply (log_abs_det_final_rows D).
Qed.

Lemma log_abs_det_jacobian_on_call_witness :
  (1 <= 2)%nat /\ length [0.6] = (2 * (2 - 1) / 2)%nat /\
  Forall in_unit_interval [0.6] /\
  exists x, Vine._call [0.6] = Ok x /\
    Vine.log_abs_det_jacobian x [0.6] = Torch.sum (Torch.tlog (Torch.diagonal x)).
Proof.
  assert (H : Forall in_unit_interval [0.6]).
  { repeat constructor; lra. }
  split; [lia|]. split; [reflexivity|]. split; [exact H|].
  apply (log_abs_det_jacobian_on_call 2 [0.6]); [lia | reflexivity | exact H].
Defined.

(** ** The vine transform: what the inverse does by order (lines 105-123) *)

(** X10.  On a square matrix of order [D] the inverse leaves with
    [UnboundLocalError] for [D = 1] (the loop never binds [j]), returns two
    coordinates for [D = 2] and four for [D = 3], and leaves with
    [RuntimeError] for [D >= 4] (the in-place addition of line 119 meets
    [D - 1] and [D - 2] elements). *)
Theorem inverse_by_order (D : nat) (x : matrix) :
  (1 <= D)%nat -> is_matrix D D x ->
  match D with
  | 1%nat => Vine._inverse x = Raise (UnboundLocalError "j")
  | 2%nat => exists z, Vine._inverse x = Ok z /\ length z = 2%nat
  | 3%nat => exists z, Vine._inverse x = Ok z /\ length z = 4%nat
  | _ => exists msg, Vine._inverse x = Raise (RuntimeError msg)
  end.
Proof.
  intros HD Hx. unfold Vine._inverse, Torch.nrows.
  rewrite (ncols_is_matrix D D x Hx ltac:(lia)).
  pose proof Hx as [Hlen _]. rewrite Hlen.
  rewrite decide_False by (intros Hne; by apply Hne).
  destruct (getcol_length D D x 1 0 Hx ltac:(lia) ltac:(lia)) as (c0 & -> & Hc0).
  rewrite bind_Ok. cbv zeta.
  destruct (getcol_length D D x (D - 1) (D - 1) Hx ltac:(lia) ltac:(lia)) as (c & Hc & Hclen).
  destruct D as [|[|[|[|D]]]]; try lia.
  - destruct c0 as [|? ?]; simpl in Hc0; try lia. reflexivity.
  - destruct c0 as [|a [|? ?]]; simpl in Hc0; try lia.
    destruct c as [|cv [|? ?]]; simpl in Hclen; try lia.
    simpl in Hc. simpl. rewrite Hc. simpl. eexists. split; reflexivity.
  - destruct c0 as [|a [|b [|? ?]]]; simpl in Hc0; try lia.
    destruct c as [|cv [|? ?]]; simpl in Hclen; try lia.
    simpl in Hc. simpl. rewrite Hc. simpl. eexists. split; reflexivity.
  - destruct c0 as [|a [|b [|b' c0]]]; simpl in Hc0; try lia.
    simpl. unfold Torch.inplace. simpl.
    rewrite decide_False by lia.
    simpl. eexists. reflexivity.
Qed.

Lemma inverse_by_order_witness :
  (1 <= 1)%nat /\ is_matrix 1 1 [[1]] /\
  Vine._inverse [[1]] = Raise (UnboundLocalError "j").
Proof.
  assert (Hm : is_matrix 1 1 [[1]]).
  { split; [reflexivity|]. intros [|i] row H; simpl in H.
    - injection H as <-. reflexivity.
    - discriminate. }
  split; [lia|]. split; [exact Hm|].
  apply (inverse_by_order 1 [[1]]); [lia | exact Hm].
Defined.

(** X11.  For one partial correlation [a] in (-1, 1), the inverse applied to
    the forward map's matrix returns [a] followed by a second coordinate
    equal to one. *)
Theorem inverse_call_order_two (a : R) :
  in_unit_interval a ->
  exists x, Vine._call [a] = Ok x /\ Vine._inverse x = Ok [a; 1].
Proof.
  intros [Ha1 Ha2]. exists [[1; 0]; [a; sqrt (1 - a ^ 2)]].
  split; [reflexivity|].
  rewrite inverse_order_two. do 3 f_equal.
  assert (0 < sqrt (1 - a ^ 2)) by (apply sqrt_lt_R0; nra).
  field. lra.
Qed.

Lemma inverse_call_order_two_witness :
  in_unit_interval 0.5 /\
  exists x, Vine._call [0.5] = Ok x /\ Vine._inverse x = Ok [0.5; 1].
Proof.
  assert (H : in_unit_interval 0.5) by (split; lra).
  split; [exact H|]. apply (inverse_call_order_two 0.5). exact H.
Defined.

(** ** The constructor's loop (lines 176-181) *)

Lemma fill_inner_ok (a : R) (lo : nat) (pre : tensor) (r0 : R) (rest : tensor) :
  LKJCholeskyFactor.fill_inner a lo (pre ++ r0 :: rest, length pre)
  = Ok ((pre ++ [a]) ++ rest, length (pre ++ [a])).
Proof.
  unfold LKJCholeskyFactor.fill_inner, LKJCholeskyFactor.setitem. simpl fst. simpl snd.
  rewrite decide_True by (rewrite length_app; simpl; lia).
  rewrite bind_Ok.
  rewrite insert_app_r_alt by lia. rewrite Nat.sub_diag. simpl insert.
  rewrite <- app_assoc, length_app. simpl. done.
Qed.

Lemma fill_inner_past_end (a : R) (lo : nat) (pre : tensor) :
  LKJCholeskyFactor.fill_inner a lo (pre ++ [], length pre)
  = Raise (IndexError "index out of range").
Proof.
  unfold LKJCholeskyFactor.fill_inner, LKJCholeskyFactor.setitem. simpl fst. simpl snd.
  rewrite decide_False by (rewrite length_app; simpl; lia). reflexivity.
Qed.

Lemma fill_outer_unfold (d k : nat) (a : R) (c : tensor) (i : nat) :
  LKJCholeskyFactor.fill_outer d k (a, c, i)
  = (ci ← for_range (k + 1) (d - (k + 1)) (LKJCholeskyFactor.fill_inner (a - 0.5)) (c, i);
     Ok (a - 0.5, ci.1, ci.2)).
Proof. reflexivity. Qed.

Lemma fill_inner_loop (a : R) (n : nat) : forall lo pre rest,
  (n <= length rest)%nat ->
  for_range lo n (LKJCholeskyFactor.fill_inner a) (pre ++ rest, length pre)
  = Ok (pre ++ replicate n a ++ drop n rest, (length pre + n)%nat).
Proof.
  induction n as [|n IH]; intros lo pre rest Hn.
  - simpl. by rewrite Nat.add_0_r.
  - destruct rest as [|r0 rest]; simpl in Hn; [lia|].
    simpl for_range. rewrite fill_inner_ok, bind_Ok.
    rewrite (IH (S lo) (pre ++ [a]) rest) by lia.
    f_equal. f_equal.
    + rewrite <- app_assoc. done.
    + rewrite length_app. simpl. lia.
Qed.

Lemma fill_inner_short (a : R) (n : nat) : forall lo pre rest,
  (length rest < n)%nat ->
  for_range lo n (LKJCholeskyFactor.fill_inner a) (pre ++ rest, length pre)
  = Raise (IndexError "index out of range").
Proof.
  induction n as [|n IH]; intros lo pre rest Hn; [lia|].
  simpl for_range. destruct rest as [|r0 rest].
  - rewrite fill_inner_past_end. reflexivity.
  - rewrite fill_inner_ok, bind_Ok. apply IH. simpl in Hn. lia.
Qed.

Lemma concentration_groups_step d alpha k0 m :
  concentration_groups d alpha k0 (S m)
  = replicate (d - (k0 + 1)) (alpha - 0.5 * INR (k0 + 1))
    ++ concentration_groups d alpha (S k0) m.
Proof. reflexivity. Qed.

Lemma fill_outer_loop (d : nat) (alpha : R) (m : nat) : forall k0 pre rest,
  (group_total d k0 m <= length rest)%nat ->
  for_range k0 m (LKJCholeskyFactor.fill_outer d)
    (alpha - 0.5 * INR k0, pre ++ rest, length pre)
  = Ok (alpha - 0.5 * INR (k0 + m),
        pre ++ concentration_groups d alpha k0 m ++ drop (group_total d k0 m) rest,
        (length pre + group_total d k0 m)%nat).
Proof.
  induction m as [|m IH]; intros k0 pre rest Hn.
  - simpl. by rewrite !Nat.add_0_r.
  - simpl in Hn. simpl for_range. rewrite fill_outer_unfold.
    rewrite fill_inner_loop by lia. rewrite bind_Ok. simpl fst. simpl snd.
    rewrite bind_Ok.
    set (n := (d - (k0 + 1))%nat) in *.
    replace (alpha - 0.5 * INR k0 - 0.5) with (alpha - 0.5 * INR (S k0))
      by (rewrite S_INR; lra).
    replace (pre ++ replicate n (alpha - 0.5 * INR (S k0)) ++ drop n rest)
      with ((pre ++ replicate n (alpha - 0.5 * INR (S k0))) ++ drop n rest)
      by (by rewrite <- app_assoc).
    replace (length pre + n)%nat
      with (length (pre ++ replicate n (alpha - 0.5 * INR (S k0))))
      by (by rewrite length_app, length_replicate).
    rewrite IH by (rewrite length_drop; lia).
    rewrite concentration_groups_step. fold n.
    replace (k0 + 1)%nat with (S k0) by lia.
    replace (S k0 + m)%nat with (k0 + S m)%nat by lia.
    f_equal. f_equal.
    + rewrite drop_drop, <- !app_assoc. done.
    + rewrite length_app, length_replicate. simpl. lia.
Qed.

Lemma fill_outer_short (d : nat) (m : nat) : forall k0 a pre rest,
  (length rest < group_total d k0 m)%nat ->
  for_range k0 m (LKJCholeskyFactor.fill_outer d) (a, pre ++ rest, length pre)
  = Raise (IndexError "index out of range").
Proof.
  induction m as [|m IH]; intros k0 a pre rest Hn; simpl in Hn; [lia|].
  simpl for_range. rewrite fill_outer_unfold.
  set (n := (d - (k0 + 1))%nat) in *.
  destruct (decide (length rest < n)%nat) as [Hlt|Hge].
  - rewrite fill_inner_short by done. reflexivity.
  - rewrite fill_inner_loop by lia. rewrite bind_Ok. simpl fst. simpl snd.
    rewrite bind_Ok.
    replace (pre ++ replicate n (a - 0.5) ++ drop n rest)
      with ((pre ++ replicate n (a - 0.5)) ++ drop n rest)
      by (by rewrite <- app_assoc).
    replace (length pre + n)%nat with (length (pre ++ replicate n (a - 0.5)))
      by (by rewrite length_app, length_replicate).
    apply IH. rewrite length_drop. lia.
Qed.

Lemma group_total_tail d m : forall k0,
  (k0 + m = d - 1)%nat -> (2 * group_total d k0 m = m * (m + 1))%nat.
Proof.
  induction m as [|m IH]; intros k0 Hk; [done|].
  simpl. specialize (IH (S k0) ltac:(lia)). nia.
Qed.

Lemma group_total_all d : group_total d 0 (d - 1) = (d * (d - 1) / 2)%nat.
Proof.
  pose proof (group_total_tail d (d - 1) 0 ltac:(lia)) as H.
  assert (E : (d * (d - 1) = group_total d 0 (d - 1) * 2)%nat) by nia.
  rewrite E. by rewrite Nat.div_mul.
Qed.

(** X12.  On a vector with at least [d (d - 1) / 2] entries the constructor's
    loop returns, group after group, [d - (k + 1)] copies of
    [alpha - 0.5 (k + 1)] for [k = 0, ..., d - 2], and leaves the entries
    beyond the first [d (d - 1) / 2] as they were. *)
Theorem fill_concentrations_closed_form (d : nat) (alpha : R) (concentrations : tensor) :
  (d * (d - 1) / 2 <= length concentrations)%nat ->
  LKJCholeskyFactor.fill_concentrations d alpha concentrations
  = Ok (concentration_groups d alpha 0 (d - 1)
        ++ drop (d * (d - 1) / 2) concentrations).
Proof.
  intros Hlen. unfold LKJCholeskyFactor.fill_concentrations.
  pose proof (fill_outer_loop d alpha (d - 1) 0 [] concentrations) as H.
  rewrite group_total_all in H. specialize (H Hlen).
  simpl in H. replace (alpha - 0.5 * 0) with alpha in H by lra.
  rewrite H. reflexivity.
Qed.

Lemma fill_concentrations_closed_form_witness :
  (4 * (4 - 1) / 2 <= length [0; 0; 0; 0; 0; 0; 7])%nat /\
  LKJCholeskyFactor.fill_concentrations 4 3 [0; 0; 0; 0; 0; 0; 7]
  = Ok (concentration_groups 4 3 0 (4 - 1) ++ drop (4 * (4 - 1) / 2) [0; 0; 0; 0; 0; 0; 7]).
Proof.
  split; [simpl; lia|].
  apply (fill_concentrations_closed_form 4 3 [0; 0; 0; 0; 0; 0; 7]). simpl. lia.
Defined.

(** X13.  On a vector with fewer than [d (d - 1) / 2] entries the
    constructor's loop leaves with the [IndexError] of the first assignment
    past the end. *)
Theorem fill_concentrations_short (d : nat) (alpha : R) (concentrations : tensor) :
  (length concentrations < d * (d - 1) / 2)%nat ->
  LKJCholeskyFactor.fill_concentrations d alpha concentrations
  = Raise (IndexError "index out of range").
Proof.
  intros Hlen. unfold LKJCholeskyFactor.fill_concentrations.
  pose proof (fill_outer_short d (d - 1) 0 alpha [] concentrations) as H.
  rewrite group_total_all in H. specialize (H Hlen).
  simpl in H. rewrite H. reflexivity.
Qed.

Lemma fill_concentrations_short_witness :
  (length [0; 0] < 3 * (3 - 1) / 2)%nat /\
  LKJCholeskyFactor.fill_concentrations 3 2 [0; 0]
  = Raise (IndexError "index out of range").
Proof.
  split; [simpl; lia|].
  apply (fill_concentrations_short 3 2 [0; 0]). simpl. lia.
Defined.





(** ** The constructor (lines 167-186) *)

(** X15.  With a positive [eta] and [d >= 2] the constructor never gets past
    line 175: [eta.new()] has no element and cannot be expanded to
    [d (d - 1) / 2 > 0] elements, so the call leaves with [RuntimeError]. *)
Theorem init_raises_at_expand (d : nat) (eta : R) :
  0 < eta -> (2 <= d)%nat ->
  LKJCholeskyFactor.__init__ d eta
  = Raise (RuntimeError "The expanded size of the tensor must match the existing size (0) at non-singleton dimension 0").
Proof.
  intros Heta Hd. unfold LKJCholeskyFactor.__init__. rewrite decide_False by lra.
  cbv zeta. unfold LKJCholeskyFactor.new_expand.
  rewrite decide_False; [reflexivity|].
  pose proof (triangular_double d). nia.
Qed.

Lemma init_raises_at_expand_witness :
  0 < 1 /\ (2 <= 3)%nat /\
  LKJCholeskyFactor.__init__ 3 1
  = Raise (RuntimeError "The expanded size of the tensor must match the existing size (0) at non-singleton dimension 0").
Proof.
  split; [lra|]. split; [lia|]. apply (init_raises_at_expand 3 1); [lra | lia].
Defined.

(** ** Sampling (lines 188-189) *)

Lemma tanh_alt v : tanh v = 1 - 2 / (exp v * exp v + 1).
Proof.
  unfold tanh, sinh, cosh. rewrite exp_Ropp.
  pose proof (exp_pos v) as Ha. set (a := exp v) in *.
  assert (0 < a * a) by nra.
  field. repeat split; try lra; nra.
Qed.

Lemma tanh_increasing a b : a < b -> tanh a < tanh b.
Proof.
  intros Hab. rewrite !tanh_alt.
  pose proof (exp_pos a) as Hp. pose proof (exp_increasing a b Hab) as Hpq.
  set (p := exp a) in *. set (q := exp b) in *.
  assert (Hinv : / (q * q + 1) < / (p * p + 1)).
  { apply Rinv_lt_contravar; nra. }
  unfold Rdiv. lra.
Qed.

Lemma tanh_opp v : tanh (- v) = - tanh v.
Proof.
  unfold tanh, sinh, cosh. rewrite Ropp_involutive.
  pose proof (exp_pos v). pose proof (exp_pos (- v)).
  field. lra.
Qed.



(** X17.  [rsample] passes the rescaled draw [2 b - 1] through the composed
    transform, so through [tanh]: for a draw with values in [0, 1], the
    entries of the first column below the diagonal are [tanh (2 b - 1)] and
    stay within [-tanh 1, tanh 1], a proper part of (-1, 1). *)
Theorem rsample_first_column_range (self : LKJCholeskyFactor.instance)
    (D : nat) (sample : tensor) (x : matrix) :
  (1 <= D)%nat -> length sample = (D * (D - 1) / 2)%nat ->
  Forall (fun b => 0 <= b <= 1) sample ->
  LKJCholeskyFactor.rsample self sample = Ok x ->
  tanh 1 < 1 /\
  forall r b, (r < D - 1)%nat -> sample !! r = Some b ->
    entry x (S r) 0 = tanh (b * 2 + -1.0) /\
    - tanh 1 <= entry x (S r) 0 <= tanh 1.
Proof.
  intros HD Hlen Hb Hx. split; [apply tanh_in_unit_interval|].
  intros r b Hr Hrb.
  unfold LKJCholeskyFactor.rsample, CorrCholeskyTransform._call in Hx.
  set (z := _TanhTransform._call ((fun v => v * 2 + -1.0) <$> sample)) in *.
  assert (HL : (length z * 2 = D * (D - 1))%nat).
  { unfold z, _TanhTransform._call. rewrite !length_fmap, Hlen. apply triangular_double. }
  assert (Hz : z !! r = Some (tanh (b * 2 + -1.0))).
  { unfold z, _TanhTransform._call. rewrite !list_lookup_fmap, Hrb. done. }
  destruct (call_column_zero D z x HD HL Hx) as [_ Hcol].
  rewrite (Hcol r _ Hr Hz). split; [done|].
  destruct (Forall_lookup_1 _ _ _ _ Hb Hrb) as [Hb0 Hb1].
  rewrite <- tanh_opp. split.
  - destruct (Req_dec (b * 2 + -1.0) (Ropp 1)) as [->|Hne]; [lra|].
    left. apply tanh_increasing. lra.
  - destruct (Req_dec (b * 2 + -1.0) 1) as [->|Hne]; [lra|].
    left. apply tanh_increasing. lra.
Qed.

Lemma rsample_first_column_range_witness :
  exists x,
    (1 <= 2)%nat /\ length [0.25] = (2 * (2 - 1) / 2)%nat /\
    Forall (fun b => 0 <= b <= 1) [0.25] /\
    LKJCholeskyFactor.rsample (LKJCholeskyFactor.Instance [1] 1 2 None) [0.25] = Ok x /\
    tanh 1 < 1 /\
    forall r b, (r < 2 - 1)%nat -> [0.25] !! r = Some b ->
      entry x (S r) 0 = tanh (b * 2 + -1.0) /\
      - tanh 1 <= entry x (S r) 0 <= tanh 1.
Proof.
  assert (Hb : Forall (fun b => 0 <= b <= 1) [0.25]).
  { repeat constructor; lra. }
  eexists. split; [lia|]. split; [reflexivity|]. split; [exact Hb|].
  split; [reflexivity|].
  apply (rsample_first_column_range (LKJCholeskyFactor.Instance [1] 1 2 None) 2 [0.25]);
    [lia | reflexivity | exact Hb | reflexivity].
Defined.
